(** * KeyValueDatabase: the write-ahead log, recovery and the engine

  A shallow embedding of the Go packages [storage] (sharded hash table),
  [persistence] (append-only log, recovery) and [database] (engine), and
  the properties of the durability protocol stated over it.

  Conventions.
  - A Go [string] and the contents of a [[]byte] are [list byte]; a
    [[]byte] that may be [nil] is [option (list byte)], [None] being [nil].
  - Go integers are [Z]; every conversion that can wrap is written out
    ([uint16], [uint32], [uint64], [int64], [int_wrap]).
  - A Go [map[string][]byte] is a [gmap (list byte) (option (list byte))].
  - A run-time panic is [None] in the [option] monad; a returned [error]
    is a value of type [error], [nil] being [None] in [option error].
  - The operating system is a record of answers ([OS]) handed to every
    call that performs I/O, and the two files of the log directory are a
    record [FS]. *)

From Stdlib Require Import ZArith List Lia Permutation String.
From coqutil Require Import Byte Word.LittleEndianList.
From stdpp Require Import base option list gmap countable.
Import ListNotations.
Local Open Scope Z_scope.

(** ** Go primitives *)

Module Go.

#[global] Instance byte_eq_dec : EqDecision byte := Byte.byte_eq_dec.
#[global] Instance byte_countable : Countable byte :=
  inj_countable Byte.to_N Byte.of_N Byte.of_to_N.

(** [len(x)] as a Go [int]. *)
Definition len {A} (l : list A) : Z := Z.of_nat (length l).

(** Conversions to the fixed-width integer types. *)
Definition uint16 (z : Z) : Z := z mod 2 ^ 16.
Definition uint32 (z : Z) : Z := z mod 2 ^ 32.
Definition uint64 (z : Z) : Z := z mod 2 ^ 64.
Definition int64 (z : Z) : Z := (z + 2 ^ 63) mod 2 ^ 64 - 2 ^ 63.
(** [int] is 64 bits wide; additions on it wrap. *)
Definition int_wrap (z : Z) : Z := int64 z.

(** A [[]byte] read as bytes: [nil] and the empty slice both hold none. *)
Definition bytes (v : option (list byte)) : list byte :=
  match v with Some l => l | None => [] end.

(** [binary.LittleEndian]. *)
Definition PutUint16 (v : Z) : list byte := le_split 2 v.
Definition PutUint32 (v : Z) : list byte := le_split 4 v.
Definition PutUint64 (v : Z) : list byte := le_split 8 v.
Definition Uint16 (b : list byte) : Z := le_combine b.
Definition Uint32 (b : list byte) : Z := le_combine b.
Definition Uint64 (b : list byte) : Z := le_combine b.

(** *** Ranging over a string: UTF-8 decoding

    [for _, char := range key] yields the runes of [key]; a byte that
    does not start a well-formed encoding yields [RuneError] and
    advances by one byte. *)
Definition RuneError : Z := 0xFFFD.
Definition RuneSelf : Z := 0x80.
Definition MaxRune : Z := 0x10FFFF.

Definition is_cont (b : byte) : bool :=
  (0x80 <=? byte.unsigned b) && (byte.unsigned b <=? 0xBF).
Definition low6 (b : byte) : Z := Z.land (byte.unsigned b) 0x3F.

Fixpoint runes (s : list byte) : list Z :=
  match s with
  | [] => []
  | b0 :: s1 =>
    let c0 := byte.unsigned b0 in
    let invalid := RuneError :: runes s1 in
    if c0 <? RuneSelf then c0 :: runes s1
    else if (0xC0 <=? c0) && (c0 <? 0xE0) then
      match s1 with
      | b1 :: s2 =>
        let r := Z.lor (Z.shiftl (Z.land c0 0x1F) 6) (low6 b1) in
        if is_cont b1 && (0x7F <? r) then r :: runes s2 else invalid
      | _ => invalid
      end
    else if (0xE0 <=? c0) && (c0 <? 0xF0) then
      match s1 with
      | b1 :: b2 :: s3 =>
        let r := Z.lor (Z.lor (Z.shiftl (Z.land c0 0x0F) 12)
                              (Z.shiftl (low6 b1) 6)) (low6 b2) in
        if is_cont b1 && is_cont b2 && (0x7FF <? r)
           && negb ((0xD800 <=? r) && (r <=? 0xDFFF))
        then r :: runes s3 else invalid
      | _ => invalid
      end
    else if (0xF0 <=? c0) && (c0 <? 0xF8) then
      match s1 with
      | b1 :: b2 :: b3 :: s4 =>
        let r := Z.lor (Z.lor (Z.lor (Z.shiftl (Z.land c0 0x07) 18)
                                     (Z.shiftl (low6 b1) 12))
                              (Z.shiftl (low6 b2) 6)) (low6 b3) in
        if is_cont b1 && is_cont b2 && is_cont b3
           && (0xFFFF <? r) && (r <=? MaxRune)
        then r :: runes s4 else invalid
      | _ => invalid
      end
    else invalid
  end.

End Go.

(** ** hash/crc32: the IEEE checksum

  [crc32.ChecksumIEEE] in its table-driven form: the table entry of [i] is
  [i] pushed through eight shift-and-xor steps with the reversed IEEE
  polynomial, and a byte is folded in by one table look-up. *)

Module crc32.

Definition IEEE : Z := 0xedb88320.

Definition step (poly crc : Z) : Z :=
  if Z.testbit crc 0 then Z.lxor (Z.shiftr crc 1) poly else Z.shiftr crc 1.

Definition tab (poly i : Z) : Z :=
  step poly (step poly (step poly (step poly
    (step poly (step poly (step poly (step poly i))))))).

Definition update1 (poly crc : Z) (v : byte) : Z :=
  Z.lxor (tab poly (Z.lxor (Z.land crc 0xFF) (byte.unsigned v)))
         (Z.shiftr crc 8).

Definition complement (crc : Z) : Z := Z.lxor crc 0xFFFFFFFF.

Definition Update (crc : Z) (poly : Z) (p : list byte) : Z :=
  complement (fold_left (update1 poly) p (complement crc)).

Definition ChecksumIEEE (data : list byte) : Z := Update 0 IEEE data.

End crc32.

(** ** Errors

  One type for Go's [error] values: the sentinels of [io] and of the
  [database] package, what the operating system reports, what
  [fmt.Errorf] builds (a format with its numeric arguments, or a format
  with the error it wraps through [%w]), and [*DatabaseError]. *)

Inductive error : Type :=
| EOF
| ErrUnexpectedEOF
| ErrInvalid
| ErrClosed
| OSError (call : string)
| Errorf (format : string) (args : list Z)
| Errorf_w (format : string) (wrapped : error)
| ErrKeyNotFound
| ErrEmptyKey
| ErrInvalidKeyType
| ErrNilValue
| ErrDatabaseClosed
| ErrLogWriteFailed
| ErrCorruptedEntry
| ErrRecoveryFailed
| DatabaseError (Operation : string) (Key : list byte) (Err : error).

(** [NewDatabaseError] only builds the record. *)
Definition NewDatabaseError (operation : string) (key : list byte)
  (err : error) : error :=
DatabaseError operation key err.

(** Result of a function that returns [(T, error)] with one of the two set. *)
Inductive result (A : Type) : Type :=
| Ok (a : A)
| Err (e : error).
Arguments Ok {A} a.
Arguments Err {A} e.

(** ** package storage: the sharded hash table *)

Module storage.
Import Go.

(** [Bucket.entries]. *)
Abbreviation Bucket := (gmap (list byte) (option (list byte))).

Record HashTable : Type := mkHashTable {
  buckets : list Bucket;
  bucketSize : Z
}.

(** [make] panics on a negative length. *)
Definition NewHashTable (numBuckets : Z) : option HashTable :=
  if numBuckets <? 0 then None
  else Some {| buckets := repeat (∅ : Bucket) (Z.to_nat numBuckets);
               bucketSize := numBuckets |}.

(** [hash]: the sum of the runes of the key, modulo the bucket count.
    Division by zero panics; [%] truncates towards zero. *)
Definition HashTable_hash (ht : HashTable) (key : list byte) : option Z :=
  let hash := fold_left (fun hash char => int_wrap (hash + char))
                        (runes key) 0 in
  if bucketSize ht =? 0 then None
  else Some (Z.rem hash (bucketSize ht)).

(** [ht.buckets[bucketIndex]]: panics out of range. *)
Definition bucket_at (ht : HashTable) (bucketIndex : Z) : option Bucket :=
  if bucketIndex <? 0 then None
  else buckets ht !! Z.to_nat bucketIndex.

Definition store_bucket (ht : HashTable) (bucketIndex : Z) (b : Bucket)
    : HashTable :=
  {| buckets := <[Z.to_nat bucketIndex := b]> (buckets ht);
     bucketSize := bucketSize ht |}.

Definition HashTable_Set (ht : HashTable) (key : list byte)
    (value : option (list byte)) : option HashTable :=
  bucketIndex ← HashTable_hash ht key;
  bucket ← bucket_at ht bucketIndex;
  Some (store_bucket ht bucketIndex (<[key := value]> bucket)).

(** Returns [(value, exists)]; an absent key reads as the zero value [nil]. *)
Definition HashTable_Get (ht : HashTable) (key : list byte)
    : option (option (list byte) * bool) :=
  bucketIndex ← HashTable_hash ht key;
  bucket ← bucket_at ht bucketIndex;
  Some (match bucket !! key with
        | Some value => (value, true)
        | None => (None, false)
        end).

Definition HashTable_Delete (ht : HashTable) (key : list byte)
    : option (HashTable * bool) :=
  bucketIndex ← HashTable_hash ht key;
  bucket ← bucket_at ht bucketIndex;
  Some (match bucket !! key with
        | Some _ => (store_bucket ht bucketIndex (delete key bucket), true)
        | None => (ht, false)
        end).

(** The order inside a bucket is whatever the map iteration yields. *)
Definition HashTable_Keys (ht : HashTable) : list (list byte) :=
  fold_left (fun keys (bucket : Bucket) =>
               keys ++ (map_to_list bucket).*1)
            (buckets ht) [].

Definition HashTable_Size (ht : HashTable) : Z :=
  fold_left (fun count (bucket : Bucket) =>
               int_wrap (count + Z.of_nat (size bucket)))
            (buckets ht) 0.

End storage.

(** ** The operating system and the log directory

  [FS] holds the two files the program touches in its log directory,
  [None] for a file that does not exist.  [OS] is what the operating
  system answers during one call: the clock, and whether each system
  call the code checks succeeds. *)

Record FS : Type := mkFS {
database_log : option (list byte);
temp_log : option (list byte)
}.

Record OS : Type := mkOS {
now : Z;
mkdir_ok : bool;
open_ok : bool;
stat_ok : bool;
open_read_ok : bool;
write_ok : bool;
close_ok : bool;
create_ok : bool;
temp_close_ok : bool;
rename_ok : bool
}.

(** ** package persistence: the log and recovery *)

Module persistence.
Import Go.
Local Open Scope string_scope.
Local Open Scope list_scope.
Local Open Scope Z_scope.

Definition LogOperation : Type := byte.
Definition OperationSet : LogOperation := Byte.x01.
Definition OperationDelete : LogOperation := Byte.x02.

Record LogEntry : Type := mkLogEntry {
  Timestamp : Z;
  Operation : LogOperation;
  Key : list byte;
  Value : option (list byte);
  Checksum : Z
}.

(** [bufio.Writer] on the log file: [Write] collects bytes, [Flush] hands
    them to the file, and the first error sticks. *)
Record Writer : Type := mkWriter {
  buf : list byte;
  werr : option error
}.

(** [file] tells whether [l.file] is non-nil; [fd_open] is the state of
    the [*os.File] that [l.file] (when non-nil) and [l.writer] share. *)
Record Log : Type := mkLog {
  dir : string;
  file : bool;
  fd_open : bool;
  writer : Writer;
  currSize : Z;
  isCompacted : bool
}.

Definition NewWriter : Writer := {| buf := []; werr := None |}.

Definition file_Write (fd_open : bool) (fs : FS) (os : OS) (p : list byte)
    : FS * option error :=
  if negb fd_open then (fs, Some ErrClosed)
  else if write_ok os
  then ({| database_log := Some (default [] (database_log fs) ++ p);
           temp_log := temp_log fs |}, None)
  else (fs, Some (OSError "write")).

Definition Writer_Write (w : Writer) (p : list byte)
    : Writer * option error :=
  match werr w with
  | Some e => (w, Some e)
  | None => ({| buf := buf w ++ p; werr := None |}, None)
  end.

Definition Writer_Flush (w : Writer) (fd_open : bool) (fs : FS) (os : OS)
    : Writer * FS * option error :=
  match werr w with
  | Some e => (w, fs, Some e)
  | None =>
    match buf w with
    | [] => (w, fs, None)
    | _ =>
      match file_Write fd_open fs os (buf w) with
      | (fs', None) => ({| buf := []; werr := None |}, fs', None)
      | (fs', Some e) => ({| buf := buf w; werr := Some e |}, fs', Some e)
      end
    end
  end.

(** [NewLog]: the file is created when missing and opened for appending. *)
Definition NewLog (dir : string) (fs : FS) (os : OS)
    : result Log * FS :=
  if negb (mkdir_ok os)
  then (Err (Errorf_w "failed to create log directory: %w"
                      (OSError "mkdir")), fs)
  else if negb (open_ok os)
  then (Err (Errorf_w "failed to open log file: %w" (OSError "open")), fs)
  else
    let fs' := {| database_log := Some (default [] (database_log fs));
                  temp_log := temp_log fs |} in
    if negb (stat_ok os)
    then (Err (Errorf_w "failed to get log file info: %w"
                        (OSError "stat")), fs')
    else (Ok {| dir := dir; file := true; fd_open := true;
                writer := NewWriter;
                currSize := len (default [] (database_log fs'));
                isCompacted := false |}, fs').

Definition checksum_data (entry : LogEntry) : list byte :=
  PutUint64 (uint64 (Timestamp entry))
  ++ [Operation entry]
  ++ Key entry
  ++ match Value entry with
     | Some value => value
     | None => []
     end.

Definition Log_calculateChecksum (entry : LogEntry) : Z :=
  crc32.ChecksumIEEE (checksum_data entry).

Definition Log_serializeEntry (entry : LogEntry) : result (list byte) :=
  let data := PutUint64 (uint64 (Timestamp entry)) in
  let data := data ++ [Operation entry] in
  let keyBytes := Key entry in
  if len keyBytes >? 65535 then Err (Errorf "key is too long" [])
  else
    let data := data ++ PutUint16 (uint16 (len keyBytes)) in
    let data := data ++ keyBytes in
    let data :=
      match Value entry with
      | Some value => (data ++ PutUint32 (uint32 (len value))) ++ value
      | None => data ++ PutUint32 0
      end in
    let data := data ++ PutUint32 (Checksum entry) in
    Ok data.

Definition with_Checksum (entry : LogEntry) (c : Z) : LogEntry :=
  {| Timestamp := Timestamp entry; Operation := Operation entry;
     Key := Key entry; Value := Value entry; Checksum := c |}.

(** The entry [Append] builds: the clock's time, then the checksum. *)
Definition new_entry (os : OS) (operation : LogOperation)
    (key : list byte) (value : option (list byte)) : LogEntry :=
  let entry := {| Timestamp := now os; Operation := operation;
                  Key := key; Value := value; Checksum := 0 |} in
  with_Checksum entry (Log_calculateChecksum entry).

Definition with_writer (l : Log) (w : Writer) : Log :=
  {| dir := dir l; file := file l; fd_open := fd_open l; writer := w;
     currSize := currSize l; isCompacted := isCompacted l |}.

Definition Log_Append (l : Log) (fs : FS) (os : OS)
    (operation : LogOperation) (key : list byte)
    (value : option (list byte)) : Log * FS * option error :=
  let entry := new_entry os operation key value in
  match Log_serializeEntry entry with
  | Err err =>
    (l, fs, Some (Errorf_w "failed to serialize log entry: %w" err))
  | Ok data =>
    match Writer_Write (writer l) data with
    | (w, Some err) =>
      (with_writer l w, fs,
       Some (Errorf_w "failed to write to log buffer: %w" err))
    | (w, None) =>
      match Writer_Flush w (fd_open l) fs os with
      | (w', fs', Some err) =>
        (with_writer l w', fs',
         Some (Errorf_w "failed to flush log to disk: %w" err))
      | (w', fs', None) =>
        ({| dir := dir l; file := file l; fd_open := fd_open l;
            writer := w'; currSize := int64 (currSize l + int64 (len data));
            isCompacted := isCompacted l |}, fs', None)
      end
    end
  end.

(** [File.Close]: the descriptor is released whatever is reported. *)
Definition file_Close (fd_open : bool) (ok : bool) : option error :=
  if negb fd_open then Some ErrClosed
  else if ok then None else Some (OSError "close").

Definition Log_Close (l : Log) (fs : FS) (os : OS)
    : Log * FS * option error :=
  if negb (file l) then (l, fs, None)
  else
    match Writer_Flush (writer l) (fd_open l) fs os with
    | (w, fs', Some err) =>
      (with_writer l w, fs',
       Some (Errorf_w "failed to flush log on close: %w" err))
    | (w, fs', None) =>
      let err := file_Close (fd_open l) (close_ok os) in
      ({| dir := dir l; file := false; fd_open := false; writer := w;
          currSize := currSize l; isCompacted := isCompacted l |},
       fs', err)
    end.

(** [Compact]: the present code writes nothing into the temporary file
    before it replaces the log with it. *)
Definition Log_Compact (l : Log) (fs : FS) (os : OS)
    : Log * FS * option error :=
  if isCompacted l then (l, fs, None)
  else if negb (create_ok os)
  then (l, fs, Some (Errorf_w "failed to create temporary log file: %w"
                              (OSError "create")))
  else
    let fs := {| database_log := database_log fs; temp_log := Some [] |} in
    match Writer_Flush (writer l) (fd_open l) fs os with
    | (w, fs', Some err) =>
      (with_writer l w,
       {| database_log := database_log fs'; temp_log := None |},
       Some (Errorf_w "failed to flush log: %w" err))
    | (w, fs', None) =>
      let removed := {| database_log := database_log fs';
                        temp_log := None |} in
      let closed := {| dir := dir l; file := file l;
                       fd_open := if file l then false else fd_open l;
                       writer := w; currSize := currSize l;
                       isCompacted := false |} in
      match (if file l then file_Close (fd_open l) (close_ok os)
             else Some ErrInvalid) with
      | Some err =>
        (closed, removed, Some (Errorf_w "failed to close log file: %w" err))
      | None =>
        if negb (temp_close_ok os)
        then (closed, removed,
              Some (Errorf_w "failed to close temporary log file: %w"
                             (OSError "close")))
        else if negb (rename_ok os)
        then (closed, fs',
              Some (Errorf_w "failed to replace log file: %w"
                             (OSError "rename")))
        else
          let fs'' := {| database_log := temp_log fs'; temp_log := None |} in
          if negb (open_ok os)
          then ({| dir := dir l; file := false; fd_open := false;
                   writer := w; currSize := currSize l;
                   isCompacted := false |}, fs'',
                Some (Errorf_w "failed to reopen log file: %w"
                               (OSError "open")))
          else
            let fs'' := {| database_log :=
                             Some (default [] (database_log fs''));
                           temp_log := None |} in
            let reopened := {| dir := dir l; file := true; fd_open := true;
                               writer := NewWriter; currSize := currSize l;
                               isCompacted := false |} in
            if negb (stat_ok os)
            then (reopened, fs'',
                  Some (Errorf_w "failed to get log file info: %w"
                                 (OSError "stat")))
            else ({| dir := dir l; file := true; fd_open := true;
                     writer := NewWriter;
                     currSize := len (default [] (database_log fs''));
                     isCompacted := false |}, fs'', None)
      end
    end.

(** *** Recovery *)

Record Recovery : Type := mkRecovery { logDir : string }.

Definition NewRecovery (logDir : string) : Recovery :=
  {| logDir := logDir |}.

(** [io.ReadFull] on the buffered reader, which is the bytes not yet
    read: the bytes obtained, their number, the error, the reader left. *)
Definition ReadFull (reader : list byte) (n : Z)
    : list byte * Z * option error * list byte :=
  if n =? 0 then ([], 0, None, reader)
  else match reader with
       | [] => ([], 0, Some EOF, [])
       | _ => if len reader <? n
              then (reader, len reader, Some ErrUnexpectedEOF, [])
              else (take (Z.to_nat n) reader, n, None,
                    drop (Z.to_nat n) reader)
       end.

(** The body of [readEntry] threads the reader and [bytesRead] and leaves
    at the first error. *)
Definition Rd (A : Type) : Type :=
  list byte * Z -> (A + error) * (list byte * Z).

#[export] Instance Rd_ret : MRet Rd := fun A a s => (inl a, s).
#[export] Instance Rd_bind : MBind Rd := fun A B f m s =>
  match m s with
  | (inl a, s') => f a s'
  | (inr e, s') => (inr e, s')
  end.
Definition Rd_fail {A} (e : error) : Rd A := fun s => (inr e, s).

Definition read_full (n : Z) : Rd (list byte) :=
  fun '(reader, bytesRead) =>
    let '(b, k, err, reader') := ReadFull reader n in
    (match err with Some e => inr e | None => inl b end,
     (reader', int64 (bytesRead + int64 k))).

Definition readEntry_body : Rd LogEntry :=
  timeBytes ← read_full 8;
  let timestamp := int64 (Uint64 timeBytes) in
  opByte ← read_full 1;
  let operation : LogOperation := nth 0 opByte Byte.x00 in
  keyLenBytes ← read_full 2;
  let keyLen := Uint16 keyLenBytes in
  keyBytes ← read_full keyLen;
  let key := keyBytes in
  valueLenBytes ← read_full 4;
  let valueLen := Uint32 valueLenBytes in
  value ← (if valueLen >? 0
           then (v ← read_full valueLen; mret (Some v))
           else mret None);
  checksumBytes ← read_full 4;
  let checksum := Uint32 checksumBytes in
  let entry := {| Timestamp := timestamp; Operation := operation;
                  Key := key; Value := value; Checksum := checksum |} in
  let data := PutUint64 (uint64 (Timestamp entry)) in
  let data := data ++ [Operation entry] in
  let data := data ++ Key entry in
  let data := match Value entry with
              | Some value => data ++ value
              | None => data
              end in
  let calculatedChecksum := crc32.ChecksumIEEE data in
  if decide (calculatedChecksum = checksum) then mret entry
  else Rd_fail (Errorf "checksum mismatch: expected %d, got %d"
                       [checksum; calculatedChecksum]).

(** [readEntry]: the entry or the error, [bytesRead], and the reader as
    the call leaves it. *)
Definition Recovery_readEntry (reader : list byte)
    : (LogEntry + error) * Z * list byte :=
  let '(r, (reader', bytesRead)) := readEntry_body (reader, 0) in
  (r, bytesRead, reader').

(** The scanning loop of [RecoverEntries].  The warnings it prints are
    collected as (offset, error) pairs.  [fuel] bounds the iterations. *)
Fixpoint recover_loop (fuel : nat) (reader : list byte)
    (entries : list LogEntry) (offset : Z) (warnings : list (Z * error))
    : option (list LogEntry * list (Z * error)) :=
  match fuel with
  | O => None
  | S fuel =>
    match Recovery_readEntry reader with
    | (inr EOF, _, _) => Some (entries, warnings)
    | (inr err, bytesRead, reader') =>
      recover_loop fuel reader' entries (int64 (offset + bytesRead))
                   (warnings ++ [(offset, err)])
    | (inl entry, bytesRead, reader') =>
      recover_loop fuel reader' (entries ++ [entry])
                   (int64 (offset + bytesRead)) warnings
    end
  end.

(** Every iteration that does not stop consumes a byte, so one more than
    the length of the file is fuel enough. *)
Definition scan (data : list byte)
    : option (list LogEntry * list (Z * error)) :=
  recover_loop (S (length data)) data [] 0 [].

Definition Recovery_RecoverEntries (r : Recovery) (fs : FS) (os : OS)
    : option (result (list LogEntry) * list (Z * error)) :=
  match database_log fs with
  | None => Some (Ok [], [])
  | Some data =>
    if negb (open_read_ok os)
    then Some (Err (Errorf_w "failed to open log file for recovery: %w"
                             (OSError "open")), [])
    else '(entries, warnings) ← scan data;
         Some (Ok entries, warnings)
  end.

End persistence.

(** ** package database: the engine *)

Module database.
Import Go storage persistence.
Local Open Scope string_scope.
Local Open Scope list_scope.
Local Open Scope Z_scope.

Record Config : Type := mkConfig {
  NumBuckets : Z;
  LogPath : string;
  CompactionInterval : Z;
  PersistenceInterval : Z;
  AutoRecover : bool
}.

(** Durations are nanoseconds. *)
Definition DefaultConfig : Config :=
  {| NumBuckets := 1024;
     LogPath := "./data";
     CompactionInterval := 10 * 60 * 1000000000;
     PersistenceInterval := 5 * 1000000000;
     AutoRecover := true |}.

(** [closeChan] is [true] once the channel has been closed. *)
Record DB : Type := mkDB {
  storage : HashTable;
  log : Log;
  recovery : Recovery;
  config : Config;
  isClosed : bool;
  closeChan : bool
}.

Definition with_storage (db : DB) (st : HashTable) : DB :=
  {| storage := st; log := log db; recovery := recovery db;
     config := config db; isClosed := isClosed db;
     closeChan := closeChan db |}.

Definition with_log (db : DB) (l : Log) : DB :=
  {| storage := storage db; log := l; recovery := recovery db;
     config := config db; isClosed := isClosed db;
     closeChan := closeChan db |}.

(** One iteration of the replay loop of [recoverFromLog]. *)
Definition replay_entry (st : HashTable) (entry : LogEntry)
    : option HashTable :=
  if decide (Operation entry = OperationSet)
  then HashTable_Set st (Key entry) (Value entry)
  else if decide (Operation entry = OperationDelete)
  then '(st', _) ← HashTable_Delete st (Key entry); Some st'
  else Some st.

Fixpoint replay (st : HashTable) (entries : list LogEntry)
    : option HashTable :=
  match entries with
  | [] => Some st
  | entry :: entries => st' ← replay_entry st entry; replay st' entries
  end.

Definition DB_recoverFromLog (db : DB) (fs : FS) (os : OS)
    : option (DB * option error) :=
  r ← Recovery_RecoverEntries (recovery db) fs os;
  match r with
  | (Err err, _) => Some (db, Some err)
  | (Ok entries, _) =>
    st ← replay (storage db) entries;
    Some (with_storage db st, None)
  end.

Definition New (config : option Config) (fs : FS) (os : OS)
    : option (result DB * FS) :=
  let config := default DefaultConfig config in
  store ← NewHashTable (NumBuckets config);
  let recovery := NewRecovery (LogPath config) in
  match NewLog (LogPath config) fs os with
  | (Err err, fs') =>
    Some (Err (NewDatabaseError "initialization" [] err), fs')
  | (Ok log, fs') =>
    let db := {| storage := store; log := log; recovery := recovery;
                 config := config; isClosed := false;
                 closeChan := false |} in
    if AutoRecover config
    then
      r ← DB_recoverFromLog db fs' os;
      match r with
      | (_, Some err) =>
        let '(_, fs'', _) := Log_Close log fs' os in
        Some (Err (NewDatabaseError "recovery" [] err), fs'')
      | (db', None) => Some (Ok db', fs')
      end
    else Some (Ok db, fs')
  end.


(** Closing a closed channel panics. *)
Definition DB_Close (db : DB) (fs : FS) (os : OS)
    : option (DB * FS * option error) :=
  if isClosed db then Some (db, fs, None)
  else if closeChan db then None
  else
    match Log_Close (log db) fs os with
    | (l, fs', Some err) =>
      Some ({| storage := storage db; log := l; recovery := recovery db;
               config := config db; isClosed := false;
               closeChan := true |}, fs',
            Some (NewDatabaseError "close" [] err))
    | (l, fs', None) =>
      Some ({| storage := storage db; log := l; recovery := recovery db;
               config := config db; isClosed := true;
               closeChan := true |}, fs', None)
    end.

Definition DB_Set (db : DB) (fs : FS) (os : OS) (key : list byte)
    (value : option (list byte)) : option (DB * FS * option error) :=
  if isClosed db then Some (db, fs, Some ErrDatabaseClosed)
  else if decide (key = []) then Some (db, fs, Some ErrEmptyKey)
  else
    match value with
    | None => Some (db, fs, Some ErrNilValue)
    | Some _ =>
      st ← HashTable_Set (storage db) key value;
      match Log_Append (log db) fs os OperationSet key value with
      | (l, fs', Some err) =>
        '(st', _) ← HashTable_Delete st key;
        Some (with_log (with_storage db st') l, fs',
              Some (NewDatabaseError "set" key err))
      | (l, fs', None) =>
        Some (with_log (with_storage db st) l, fs', None)
      end
    end.

Definition DB_Get (db : DB) (key : list byte)
    : option (option (list byte) * option error) :=
  if isClosed db then Some (None, Some ErrDatabaseClosed)
  else if decide (key = []) then Some (None, Some ErrEmptyKey)
  else
    '(value, exists_) ← HashTable_Get (storage db) key;
    if negb exists_
    then Some (None, Some (NewDatabaseError "get" key ErrKeyNotFound))
    else Some (value, None).

Definition DB_Delete (db : DB) (fs : FS) (os : OS) (key : list byte)
    : option (DB * FS * option error) :=
  if isClosed db then Some (db, fs, Some ErrDatabaseClosed)
  else if decide (key = []) then Some (db, fs, Some ErrEmptyKey)
  else
    '(_, exists_) ← HashTable_Get (storage db) key;
    if negb exists_
    then Some (db, fs, Some (NewDatabaseError "delete" key ErrKeyNotFound))
    else
      '(st, _) ← HashTable_Delete (storage db) key;
      match Log_Append (log db) fs os OperationDelete key None with
      | (l, fs', Some err) =>
        Some (with_log (with_storage db st) l, fs',
              Some (NewDatabaseError "delete" key err))
      | (l, fs', None) =>
        Some (with_log (with_storage db st) l, fs', None)
      end.

Definition DB_Keys (db : DB) : list (list byte) :=
  if isClosed db then [] else HashTable_Keys (storage db).

Definition DB_Size (db : DB) : Z :=
  if isClosed db then 0 else HashTable_Size (storage db).

End database.

(** * Specification vocabulary *)

(** Finite checks over the 256 table indices of the checksum. *)
Module crc32_checks.
Import crc32.

Definition byte_range : list Z := map Z.of_nat (seq 0 256).

Definition top (i : Z) : Z := Z.shiftr (tab IEEE i) 24.

Definition tab_range_check (i : Z) : bool :=
  (0 <=? tab IEEE i) && (tab IEEE i <? 4294967296).

Definition top_inj_check (i : Z) : bool :=
  forallb (fun j => implb (top i =? top j) (i =? j)) byte_range.

End crc32_checks.

(** Records on the wire. *)
Module records.
Import Go persistence.
Local Open Scope string_scope.
Local Open Scope list_scope.
Local Open Scope Z_scope.

(** The bytes of one record, field after field. *)
Definition wire (e : LogEntry) : list byte :=
  PutUint64 (uint64 (Timestamp e))
  ++ [Operation e]
  ++ PutUint16 (uint16 (len (Key e)))
  ++ Key e
  ++ PutUint32 (uint32 (len (bytes (Value e))))
  ++ bytes (Value e)
  ++ PutUint32 (Checksum e).

(** What the decoder makes of an entry: a value of no bytes is [nil]. *)
Definition decoded (e : LogEntry) : LogEntry :=
  {| Timestamp := Timestamp e; Operation := Operation e; Key := Key e;
     Value := match bytes (Value e) with
              | [] => None
              | v => Some v
              end;
     Checksum := Checksum e |}.

Definition fits (e : LogEntry) : Prop :=
  - 2 ^ 63 <= Timestamp e < 2 ^ 63
  /\ len (Key e) <= 65535
  /\ len (bytes (Value e)) < 2 ^ 32
  /\ 0 <= Checksum e < 2 ^ 32.

Definition checksum_error (expected got : Z) : error :=
  Errorf "checksum mismatch: expected %d, got %d" [expected; got].

(** A record as [Append] writes it: the fields fit their wire widths and
    the stored checksum is the computed one. *)
Definition well_formed (e : LogEntry) : Prop :=
  fits e /\ Checksum e = Log_calculateChecksum e.

Definition image (es : list LogEntry) : list byte := concat (map wire es).

Definition with_Key (e : LogEntry) (k : list byte) : LogEntry :=
  {| Timestamp := Timestamp e; Operation := Operation e; Key := k;
     Value := Value e; Checksum := Checksum e |}.

Definition with_Value (e : LogEntry) (v : option (list byte)) : LogEntry :=
  {| Timestamp := Timestamp e; Operation := Operation e; Key := Key e;
     Value := v; Checksum := Checksum e |}.

(** Offsets of the key bytes and of the value bytes inside a record. *)
Definition in_key (e : LogEntry) (i : nat) : Prop :=
  (11 <= i < 11 + length (Key e))%nat.
Definition in_value (e : LogEntry) (i : nat) : Prop :=
  (15 + length (Key e) <= i
   < 15 + length (Key e) + length (bytes (Value e)))%nat.
Definition in_payload (e : LogEntry) (i : nat) : Prop :=
  in_key e i \/ in_value e i.

End records.

(** The sum that [hash] takes over the runes of a key. *)
Module hashing.
Definition rune_sum (l : list Z) : Z := fold_right Z.add 0 l.
End hashing.

(** Concrete runs: answers of the operating system, keys and values. *)
Module scenarios.
Import Go storage persistence database.
Local Open Scope string_scope.
Local Open Scope list_scope.
Local Open Scope Z_scope.

(** Every system call succeeds; the clock reads [t]. *)
Definition os_ok (t : Z) : OS :=
  {| now := t; mkdir_ok := true; open_ok := true; stat_ok := true;
     open_read_ok := true; write_ok := true; close_ok := true;
     create_ok := true; temp_close_ok := true; rename_ok := true |}.

(** Writing to the log file fails (a full disk, say). *)
Definition os_write_fails (t : Z) : OS :=
  {| now := t; mkdir_ok := true; open_ok := true; stat_ok := true;
     open_read_ok := true; write_ok := false; close_ok := true;
     create_ok := true; temp_close_ok := true; rename_ok := true |}.

(** Closing the log file reports an error. *)
Definition os_close_fails (t : Z) : OS :=
  {| now := t; mkdir_ok := true; open_ok := true; stat_ok := true;
     open_read_ok := true; write_ok := true; close_ok := false;
     create_ok := true; temp_close_ok := true; rename_ok := true |}.

Definition no_files : FS := {| database_log := None; temp_log := None |}.

(** [New(nil)] in an empty directory. *)
Definition fresh : option (DB * FS) :=
  r ← New None no_files (os_ok 0);
  match r with
  | (Ok db, fs) => Some (db, fs)
  | (Err _, _) => None
  end.

(** The database [New(nil)] returns there, and the directory it leaves. *)
Definition db_open : DB :=
  {| storage := {| buckets := repeat (∅ : Bucket) (Z.to_nat 1024);
                   bucketSize := 1024 |};
     log := {| dir := "./data"; file := true; fd_open := true;
               writer := NewWriter; currSize := 0; isCompacted := false |};
     recovery := NewRecovery "./data";
     config := DefaultConfig;
     isClosed := false;
     closeChan := false |}.
Definition fs_open : FS := {| database_log := Some []; temp_log := None |}.

(** The state a call leaves; a panic is mapped to a closed database. *)
Definition after (r : option (DB * FS * option error)) : DB * FS :=
  match r with
  | Some (db, fs, _) => (db, fs)
  | None => ({| storage := storage db_open; log := log db_open;
                recovery := recovery db_open; config := config db_open;
                isClosed := true; closeChan := true |}, no_files)
  end.

Definition key_a : list byte := [Byte.x61].
Definition key_ab : list byte := [Byte.x61; Byte.x62].
Definition key_ba : list byte := [Byte.x62; Byte.x61].
Definition val_1 : option (list byte) := Some [Byte.x31].
Definition val_2 : option (list byte) := Some [Byte.x32].

(** A key one byte longer than the wire format admits. *)
Definition long_key : list byte := repeat Byte.x61 (Z.to_nat 65536).

(** The index rebuilt from the log file, as [New] does at start-up. *)
Definition rebuilt (db : DB) (fs : FS) (os : OS) : option HashTable :=
  r ← Recovery_RecoverEntries (recovery db) fs os;
  match r with
  | (Ok entries, _) =>
    st ← NewHashTable (NumBuckets (config db)); replay st entries
  | (Err _, _) => None
  end.
End scenarios.

(** Vocabulary for the hash table. *)
Module tables.
Import Go storage.

(** Every key sits in the bucket that [hash] selects for it, and there
    are as many buckets as [bucketSize] says, at least one. *)
Definition table_ok (ht : HashTable) : Prop :=
  0 < bucketSize ht
  /\ len (buckets ht) = bucketSize ht
  /\ forall i b k,
       buckets ht !! i = Some b -> is_Some (b !! k) ->
       HashTable_hash ht k = Some (Z.of_nat i).

(** The keys of all buckets, bucket after bucket. *)
Definition all_keys (ht : HashTable) : list (list byte) :=
  concat (map (fun b : Bucket => (map_to_list b).*1) (buckets ht)).
End tables.

(** Vocabulary for the reader of [readEntry]. *)
Module readers.
Import Go persistence.

(** What a step of [readEntry] does to the reader and to [bytesRead]: it
    takes [p] off the front of the reader and counts its bytes. *)
Definition consumed (p : list byte) (s s' : list byte * Z) : Prop :=
  s.1 = p ++ s'.1
  /\ int64 s'.2 = int64 (s.2 + len p)
  /\ (int64 s.2 = s.2 -> int64 s'.2 = s'.2).

Definition consumes {A} (m : Rd A) : Prop :=
  forall s r s', m s = (r, s') -> exists p, consumed p s s'.

(** What a step returns when it succeeds. *)
Definition returns {A} (Q : A -> Prop) (m : Rd A) : Prop :=
  forall s a s', m s = (inl a, s') -> Q a.

(** The two ways a read ends at the end of the file. *)
Definition at_end (err : error) : Prop :=
  err = EOF \/ err = ErrUnexpectedEOF.

(** Running a step on a reader cut short of [q]: it does what it does on
    the whole reader, or it meets the end of the file. *)
Definition cut_short {A} (q : list byte) (m : Rd A) : Prop :=
  forall p c,
    let '(r, (rd, cd)) := m (p ++ q, c) in
    let '(r', (rp, cp)) := m (p, c) in
    (r' = r /\ rd = rp ++ q /\ cp = cd)
    \/ (rp = [] /\ exists err, r' = inr err /\ at_end err).
End readers.

(** Vocabulary for the state of the log. *)
Module logs.
Import Go persistence.

(** A log as [NewLog] returns it and [Append] keeps it: the file is open
    and the writer holds neither bytes nor an error. *)
Definition healthy (l : Log) : Prop :=
  file l = true /\ fd_open l = true
  /\ werr (writer l) = None /\ buf (writer l) = [].

(** The log file with [data] added at its end. *)
Definition appended (fs : FS) (data : list byte) : FS :=
  {| database_log := Some (default [] (database_log fs) ++ data);
     temp_log := temp_log fs |}.

(** A log that can no longer be written: its writer holds an error, or
    its file is closed. *)
Definition dead (l : Log) : Prop :=
  (exists e, werr (writer l) = Some e)
  \/ (fd_open l = false /\ buf (writer l) = []).

Definition with_currSize (l : Log) (n : Z) : Log :=
  {| dir := dir l; file := file l; fd_open := fd_open l;
     writer := writer l; currSize := n; isCompacted := isCompacted l |}.
End logs.

(** Vocabulary for runs of the engine. *)
Module histories.
Import Go storage persistence database records tables logs.

(** A mutating call of the public interface. *)
Inductive call : Type :=
| Call_Set (key : list byte) (value : option (list byte))
| Call_Delete (key : list byte).










End histories.

(** More concrete runs. *)
Module cases.
Import Go storage persistence database records scenarios histories.
Local Open Scope string_scope.
Local Open Scope list_scope.
Local Open Scope Z_scope.

(** Replacing the log file by the temporary file fails. *)
Definition os_rename_fails (t : Z) : OS :=
  {| now := t; mkdir_ok := true; open_ok := true; stat_ok := true;
     open_read_ok := true; write_ok := true; close_ok := true;
     create_ok := true; temp_close_ok := true; rename_ok := false |}.

(** The table of a fresh database, and the table a call leaves. *)
Definition table_0 : HashTable := storage db_open.
Definition table_after (r : option HashTable) : HashTable :=
  default table_0 r.
Definition table_a : HashTable :=
  table_after (HashTable_Set table_0 key_a val_1).
Definition deleted (r : option (HashTable * bool)) : HashTable * bool :=
  default (table_0, false) r.

Definition entry_1 : LogEntry := new_entry (os_ok 1) OperationSet key_a val_1.
Definition entry_2 : LogEntry := new_entry (os_ok 2) OperationSet key_ab val_2.

(** A log file holding one record. *)
Definition fs_1 : FS :=
  {| database_log := Some (wire entry_1); temp_log := None |}.

(** Bytes that are no record. *)
Definition garbage : list byte := [Byte.x01; Byte.x02; Byte.x03].


(** Opening the log file for recovery fails. *)
Definition os_read_fails (t : Z) : OS :=
  {| now := t; mkdir_ok := true; open_ok := true; stat_ok := true;
     open_read_ok := false; write_ok := true; close_ok := true;
     create_ok := true; temp_close_ok := true; rename_ok := true |}.

(** A configuration without buckets. *)
Definition no_buckets_config : Config :=
  {| NumBuckets := 0; LogPath := "./data";
     CompactionInterval := 10 * 60 * 1000000000;
     PersistenceInterval := 5 * 1000000000; AutoRecover := true |}.
End cases.

(** * Facts *)

Module crc32_facts.
Import crc32 crc32_checks.

Lemma in_byte_range i : 0 <= i < 256 -> In i byte_range.
Proof.
  intros Hi. unfold byte_range.
  rewrite <- (Z2Nat.id i) by lia.
  apply in_map, in_seq. lia.
Qed.

Lemma forall_byte_range (P : Z -> bool) :
  forallb P byte_range = true -> forall i, 0 <= i < 256 -> P i = true.
Proof.
  intros H i Hi. rewrite forallb_forall in H. apply H, in_byte_range, Hi.
Qed.

Lemma tab_range_all : forallb tab_range_check byte_range = true.
Proof. vm_compute. reflexivity. Qed.

Lemma tab_range i : 0 <= i < 256 -> 0 <= tab IEEE i < 2 ^ 32.
Proof.
  intros Hi.
  pose proof (forall_byte_range _ tab_range_all i Hi) as H.
  unfold tab_range_check in H.
  apply andb_prop in H. destruct H as [H1 H2].
  apply Z.leb_le in H1. apply Z.ltb_lt in H2.
  change (2 ^ 32) with 4294967296. lia.
Qed.

Lemma top_inj_all : forallb top_inj_check byte_range = true.
Proof. vm_compute. reflexivity. Qed.

Lemma top_inj i j :
  0 <= i < 256 -> 0 <= j < 256 -> top i = top j -> i = j.
Proof.
  intros Hi Hj Heq.
  pose proof (forall_byte_range _ top_inj_all i Hi) as H.
  unfold top_inj_check in H.
  pose proof (forall_byte_range _ H j Hj) as H'. cbv beta in H'.
  rewrite Heq, Z.eqb_refl in H'. cbn [implb] in H'.
  apply Z.eqb_eq in H'. exact H'.
Qed.

Lemma lxor_range n a b :
  0 <= a < 2 ^ n -> 0 <= b < 2 ^ n -> 0 <= Z.lxor a b < 2 ^ n.
Proof.
  intros Ha Hb.
  assert (Hn : 0 <= n).
  { destruct (Z.leb_spec 0 n) as [|Hneg]; [assumption|].
    rewrite (Z.pow_neg_r 2 n Hneg) in Ha. lia. }
  assert (H0 : 0 <= Z.lxor a b) by (apply Z.lxor_nonneg; lia).
  split; [exact H0|].
  destruct (Z.eq_dec (Z.lxor a b) 0) as [E|E]; [rewrite E; lia|].
  apply Z.log2_lt_pow2; [lia|].
  pose proof (Z.log2_lxor a b ltac:(lia) ltac:(lia)) as Hl.
  assert (Hla : a = 0 \/ Z.log2 a < n).
  { destruct (Z.eq_dec a 0); [left; assumption|right].
    apply Z.log2_lt_pow2; lia. }
  assert (Hlb : b = 0 \/ Z.log2 b < n).
  { destruct (Z.eq_dec b 0); [left; assumption|right].
    apply Z.log2_lt_pow2; lia. }
  destruct Hla as [->|Hla], Hlb as [->|Hlb].
  - rewrite Z.lxor_0_l in E. lia.
  - rewrite Z.lxor_0_l. lia.
  - rewrite Z.lxor_0_r. lia.
  - lia.
Qed.

Lemma lxor_cancel_r a b c : Z.lxor a c = Z.lxor b c -> a = b.
Proof.
  intros H. apply (f_equal (fun x => Z.lxor x c)) in H.
  rewrite !Z.lxor_assoc, Z.lxor_nilpotent, !Z.lxor_0_r in H. exact H.
Qed.

Lemma lxor_cancel_l a b c : Z.lxor c a = Z.lxor c b -> a = b.
Proof. rewrite !(Z.lxor_comm c). apply lxor_cancel_r. Qed.

Lemma low_byte_range c : 0 <= Z.land c 0xFF < 2 ^ 8.
Proof.
  change 0xFF with (Z.ones 8). rewrite Z.land_ones by lia.
  apply Z.mod_pos_bound. lia.
Qed.

(** The table index of [update1] is a byte. *)
Lemma index_range c v :
  0 <= Z.lxor (Z.land c 0xFF) (byte.unsigned v) < 256.
Proof.
  change 256 with (2 ^ 8). apply lxor_range.
  - apply low_byte_range.
  - apply byte.unsigned_range.
Qed.

Lemma shiftr_range c n m :
  0 <= m -> 0 <= n -> 0 <= c < 2 ^ (n + m) -> 0 <= Z.shiftr c m < 2 ^ n.
Proof.
  intros Hm Hn Hc. rewrite Z.shiftr_div_pow2 by lia.
  rewrite Z.pow_add_r in Hc by lia.
  split.
  - apply Z.div_pos; lia.
  - apply Z.div_lt_upper_bound; lia.
Qed.

Lemma update1_range c v :
  0 <= c < 2 ^ 32 -> 0 <= update1 IEEE c v < 2 ^ 32.
Proof.
  intros Hc. unfold update1. apply lxor_range.
  - apply tab_range, index_range.
  - pose proof (shiftr_range c 24 8 ltac:(lia) ltac:(lia) Hc). lia.
Qed.

(** The top byte of the new state names the table entry that was used. *)
Lemma update1_top c v :
  0 <= c < 2 ^ 32 ->
  Z.shiftr (update1 IEEE c v) 24
  = top (Z.lxor (Z.land c 0xFF) (byte.unsigned v)).
Proof.
  intros Hc. unfold update1, top.
  rewrite Z.shiftr_lxor, Z.shiftr_shiftr by lia.
  replace (Z.shiftr c (8 + 24)) with 0; [apply Z.lxor_0_r|].
  symmetry. rewrite Z.shiftr_div_pow2 by lia. apply Z.div_small. lia.
Qed.

Lemma split_low_byte c :
  c = Z.shiftr c 8 * 2 ^ 8 + Z.land c 0xFF.
Proof.
  change 0xFF with (Z.ones 8).
  rewrite Z.land_ones, Z.shiftr_div_pow2 by lia.
  pose proof (Z.div_mod c (2 ^ 8) ltac:(lia)). lia.
Qed.

Lemma update1_inj c1 c2 v :
  0 <= c1 < 2 ^ 32 -> 0 <= c2 < 2 ^ 32 ->
  update1 IEEE c1 v = update1 IEEE c2 v -> c1 = c2.
Proof.
  intros H1 H2 Heq.
  assert (Hidx : Z.lxor (Z.land c1 0xFF) (byte.unsigned v)
                 = Z.lxor (Z.land c2 0xFF) (byte.unsigned v)).
  { apply top_inj; try apply index_range.
    rewrite <- !update1_top by assumption. now rewrite Heq. }
  unfold update1 in Heq. rewrite Hidx in Heq.
  apply lxor_cancel_l in Heq. apply lxor_cancel_r in Hidx.
  rewrite (split_low_byte c1), (split_low_byte c2). congruence.
Qed.

Lemma update1_byte_neq c v v' :
  0 <= c < 2 ^ 32 -> v <> v' -> update1 IEEE c v <> update1 IEEE c v'.
Proof.
  intros Hc Hv Heq. apply Hv, byte.unsigned_inj.
  apply (lxor_cancel_l _ _ (Z.land c 0xFF)).
  apply top_inj; try apply index_range.
  rewrite <- !update1_top by assumption. now rewrite Heq.
Qed.

Lemma fold_update1_range data c :
  0 <= c < 2 ^ 32 -> 0 <= fold_left (update1 IEEE) data c < 2 ^ 32.
Proof.
  revert c. induction data as [|v data IH]; intros c Hc; [exact Hc|].
  cbn [fold_left]. apply IH, update1_range, Hc.
Qed.

Lemma fold_update1_neq data c1 c2 :
  0 <= c1 < 2 ^ 32 -> 0 <= c2 < 2 ^ 32 -> c1 <> c2 ->
  fold_left (update1 IEEE) data c1 <> fold_left (update1 IEEE) data c2.
Proof.
  revert c1 c2. induction data as [|v data IH]; intros c1 c2 H1 H2 Hne;
    [exact Hne|].
  cbn [fold_left]. apply IH; try (apply update1_range; assumption).
  intros Heq. apply Hne. eapply update1_inj; eassumption.
Qed.

Lemma complement_range c : 0 <= c < 2 ^ 32 -> 0 <= complement c < 2 ^ 32.
Proof. intros Hc. unfold complement. apply lxor_range; [exact Hc|lia]. Qed.

Lemma ChecksumIEEE_range data : 0 <= ChecksumIEEE data < 2 ^ 32.
Proof.
  unfold ChecksumIEEE, Update.
  apply complement_range, fold_update1_range, complement_range. lia.
Qed.

(** Changing one byte of the data changes the checksum. *)
Lemma ChecksumIEEE_one_byte pre b b' post :
  b <> b' ->
  ChecksumIEEE (pre ++ b :: post) <> ChecksumIEEE (pre ++ b' :: post).
Proof.
  intros Hb. unfold ChecksumIEEE, Update. intros Heq.
  apply lxor_cancel_r in Heq. revert Heq.
  rewrite !fold_left_app. cbn [fold_left].
  assert (Hc : 0 <= fold_left (update1 IEEE) pre (complement 0) < 2 ^ 32).
  { apply fold_update1_range, complement_range. lia. }
  apply fold_update1_neq; try (apply update1_range; exact Hc).
  apply update1_byte_neq; assumption.
Qed.

End crc32_facts.

Module Go_facts.
Import Go.

Lemma int64_small z : - 2 ^ 63 <= z < 2 ^ 63 -> int64 z = z.
Proof. intros H. unfold int64. rewrite Z.mod_small; lia. Qed.

Lemma int64_range z : - 2 ^ 63 <= int64 z < 2 ^ 63.
Proof.
  unfold int64. pose proof (Z.mod_pos_bound (z + 2 ^ 63) (2 ^ 64)). lia.
Qed.

Lemma int64_add_l a b : int64 (int64 a + b) = int64 (a + b).
Proof.
  unfold int64.
  replace ((a + 2 ^ 63) mod 2 ^ 64 - 2 ^ 63 + b + 2 ^ 63)
    with ((a + 2 ^ 63) mod 2 ^ 64 + b) by lia.
  rewrite Zplus_mod_idemp_l. f_equal. f_equal. lia.
Qed.

Lemma int64_add_r a b : int64 (a + int64 b) = int64 (a + b).
Proof. rewrite Z.add_comm, int64_add_l. f_equal. lia. Qed.

Lemma int64_step c n :
  - 2 ^ 63 <= n < 2 ^ 63 -> - 2 ^ 63 <= c + n < 2 ^ 63 ->
  int64 (c + int64 n) = c + n.
Proof. intros Hn Hc. now rewrite (int64_small n Hn), int64_small. Qed.

Lemma int64_uint64 z : int64 (uint64 z) = int64 z.
Proof. unfold int64, uint64. now rewrite Zplus_mod_idemp_l. Qed.

Lemma Uint64_PutUint64 z : Uint64 (PutUint64 z) = uint64 z.
Proof. unfold Uint64, PutUint64, uint64. now rewrite le_combine_split. Qed.

Lemma Uint32_PutUint32 z : Uint32 (PutUint32 z) = uint32 z.
Proof. unfold Uint32, PutUint32, uint32. now rewrite le_combine_split. Qed.

Lemma Uint16_PutUint16 z : Uint16 (PutUint16 z) = uint16 z.
Proof. unfold Uint16, PutUint16, uint16. now rewrite le_combine_split. Qed.

Lemma uint16_small z : 0 <= z <= 65535 -> uint16 z = z.
Proof. intros H. unfold uint16. apply Z.mod_small. lia. Qed.

Lemma uint32_small z : 0 <= z < 2 ^ 32 -> uint32 z = z.
Proof. intros H. unfold uint32. apply Z.mod_small. lia. Qed.

Lemma uint64_idem z : uint64 (uint64 z) = uint64 z.
Proof. unfold uint64. apply Z.mod_mod. lia. Qed.

Lemma len_app {A} (l1 l2 : list A) : len (l1 ++ l2) = len l1 + len l2.
Proof. unfold len. rewrite length_app. lia. Qed.

Lemma len_nonneg {A} (l : list A) : 0 <= len l.
Proof. unfold len. lia. Qed.

Lemma len_PutUint64 z : len (PutUint64 z) = 8.
Proof. unfold len, PutUint64. now rewrite length_le_split. Qed.
Lemma len_PutUint32 z : len (PutUint32 z) = 4.
Proof. unfold len, PutUint32. now rewrite length_le_split. Qed.
Lemma len_PutUint16 z : len (PutUint16 z) = 2.
Proof. unfold len, PutUint16. now rewrite length_le_split. Qed.
End Go_facts.

Module persistence_facts.
Import Go Go_facts persistence records.

Lemma serializeEntry_wire e :
  len (Key e) <= 65535 -> Log_serializeEntry e = Ok (wire e).
Proof.
  intros Hk. unfold Log_serializeEntry, wire.
  destruct (Z.gtb_spec (len (Key e)) 65535) as [|_]; [lia|].
  destruct (Value e) as [v|]; cbn [bytes]; f_equal;
    rewrite <- ?app_assoc; reflexivity.
Qed.

Lemma serializeEntry_too_long e :
  65535 < len (Key e) ->
  Log_serializeEntry e = Err (Errorf "key is too long" []).
Proof.
  intros Hk. unfold Log_serializeEntry.
  destruct (Z.gtb_spec (len (Key e)) 65535) as [_|]; [reflexivity|lia].
Qed.

Lemma len_wire e :
  len (wire e) = 19 + len (Key e) + len (bytes (Value e)).
Proof.
  unfold wire. rewrite !len_app, len_PutUint64, len_PutUint16,
    !len_PutUint32. unfold len at 1. cbn [length]. lia.
Qed.

Lemma ReadFull_app a rest :
  ReadFull (a ++ rest) (len a) = (a, len a, None, rest).
Proof.
  unfold ReadFull. destruct a as [|b a].
  - reflexivity.
  - destruct (Z.eqb_spec (len (b :: a)) 0) as [E|_];
      [unfold len in E; cbn in E; lia|].
    cbn [app].
    destruct (Z.ltb_spec (len (b :: a ++ rest)) (len (b :: a))) as [L|_].
    { unfold len in L. cbn [length] in L. rewrite length_app in L. lia. }
    unfold len. rewrite Nat2Z.id.
    change (b :: a ++ rest) with ((b :: a) ++ rest).
    rewrite take_app_length, drop_app_length. reflexivity.
Qed.

Lemma read_full_app {B} a rest c (k : list byte -> Rd B) :
  (read_full (len a) ≫= k) (a ++ rest, c)
  = k a (rest, int64 (c + int64 (len a))).
Proof.
  unfold mbind, Rd_bind, read_full. now rewrite ReadFull_app.
Qed.

Lemma mret_bind {A B} (a : A) (k : A -> Rd B) s :
  (mret a ≫= k) s = k a s.
Proof. reflexivity. Qed.

Lemma checksum_data_decoded e :
  checksum_data (decoded e) = checksum_data e.
Proof.
  unfold checksum_data, decoded. cbn.
  destruct (Value e) as [[|b v]|]; reflexivity.
Qed.

Lemma read_full_app' {B} n a rest c (k : list byte -> Rd B) :
  len a = n ->
  (read_full n ≫= k) (a ++ rest, c)
  = k a (rest, int64 (c + int64 n)).
Proof. intros <-. apply read_full_app. Qed.

Lemma bytesRead_total k v :
  0 <= k <= 65535 -> 0 <= v < 2 ^ 32 ->
  int64 (int64 (int64 (int64 (int64 (int64 (int64
    (0 + int64 8) + int64 1) + int64 2) + int64 k) + int64 4) + int64 v)
    + int64 4) = 19 + k + v.
Proof.
  intros Hk Hv.
  rewrite (int64_step 0 8) by lia.
  rewrite (int64_step (0 + 8) 1) by lia.
  rewrite (int64_step (0 + 8 + 1) 2) by lia.
  rewrite (int64_step (0 + 8 + 1 + 2) k) by lia.
  rewrite (int64_step (0 + 8 + 1 + 2 + k) 4) by lia.
  rewrite (int64_step (0 + 8 + 1 + 2 + k + 4) v) by lia.
  rewrite (int64_step (0 + 8 + 1 + 2 + k + 4 + v) 4) by lia.
  lia.
Qed.

Lemma bytesRead_total_nil k :
  0 <= k <= 65535 ->
  int64 (int64 (int64 (int64 (int64 (int64
    (0 + int64 8) + int64 1) + int64 2) + int64 k) + int64 4)
    + int64 4) = 19 + k + 0.
Proof.
  intros Hk.
  rewrite (int64_step 0 8) by lia.
  rewrite (int64_step (0 + 8) 1) by lia.
  rewrite (int64_step (0 + 8 + 1) 2) by lia.
  rewrite (int64_step (0 + 8 + 1 + 2) k) by lia.
  rewrite (int64_step (0 + 8 + 1 + 2 + k) 4) by lia.
  rewrite (int64_step (0 + 8 + 1 + 2 + k + 4) 4) by lia.
  lia.
Qed.

(** Decoding the bytes of one record that is followed by [rest]: the
    whole record is consumed, and the entry comes back exactly when the
    stored checksum is the computed one. *)
Lemma readEntry_wire e rest :
  fits e ->
  Recovery_readEntry (wire e ++ rest)
  = (if decide (Log_calculateChecksum e = Checksum e)
     then inl (decoded e)
     else inr (checksum_error (Checksum e) (Log_calculateChecksum e)),
     len (wire e), rest).
Proof.
  intros (Hts & Hk & Hv & Hc).
  pose proof (len_nonneg (Key e)) as Hk0.
  pose proof (len_nonneg (bytes (Value e))) as Hv0.
  rewrite len_wire.
  unfold Recovery_readEntry, readEntry_body, wire, Log_calculateChecksum,
    checksum_data, decoded, checksum_error.
  rewrite <- !app_assoc.
  rewrite (read_full_app' 8) by apply len_PutUint64. cbv beta zeta.
  rewrite (read_full_app' 1) by reflexivity. cbv beta zeta.
  rewrite (read_full_app' 2) by apply len_PutUint16. cbv beta zeta.
  rewrite Uint16_PutUint16, (uint16_small (uint16 _)), uint16_small
    by (rewrite ?uint16_small; lia).
  rewrite read_full_app. cbv beta zeta.
  rewrite (read_full_app' 4) by apply len_PutUint32. cbv beta zeta.
  rewrite Uint32_PutUint32, (uint32_small (uint32 _)), uint32_small
    by (rewrite ?uint32_small; lia).
  rewrite Uint64_PutUint64, uint64_idem, int64_uint64, (int64_small _ Hts).
  cbn [nth].
  destruct (Value e) as [[|b v]|] eqn:HV; cbn [bytes] in *.
  - change (len []) with 0. cbn [Z.gtb Z.compare].
    rewrite mret_bind. cbn [app].
    rewrite (read_full_app' 4) by apply len_PutUint32. cbv beta zeta.
    rewrite Uint32_PutUint32, (uint32_small _ Hc).
    rewrite bytesRead_total_nil by lia.
    rewrite <- !app_assoc, !app_nil_r. cbn [app].
    destruct (decide _) as [E|E]; reflexivity.
  - destruct (Z.gtb_spec (len (b :: v)) 0) as [_|L];
      [|unfold len in L; cbn in L; lia].
    unfold mbind at 1. unfold Rd_bind at 1.
    rewrite read_full_app. cbv beta zeta.
    unfold mret at 1. unfold Rd_ret at 1. cbv beta iota.
    rewrite (read_full_app' 4) by apply len_PutUint32. cbv beta zeta.
    rewrite Uint32_PutUint32, (uint32_small _ Hc).
    rewrite bytesRead_total by lia.
    rewrite <- !app_assoc. cbn [app].
    destruct (decide _) as [E|E]; reflexivity.
  - change (len []) with 0. cbn [Z.gtb Z.compare].
    rewrite mret_bind. cbn [app].
    rewrite (read_full_app' 4) by apply len_PutUint32. cbv beta zeta.
    rewrite Uint32_PutUint32, (uint32_small _ Hc).
    rewrite bytesRead_total_nil by lia.
    rewrite <- !app_assoc, ?app_nil_r. cbn [app].
    destruct (decide _) as [E|E]; reflexivity.
Qed.

Lemma readEntry_nil : Recovery_readEntry [] = (inr EOF, 0, []).
Proof. reflexivity. Qed.

Lemma readEntry_well_formed e rest :
  well_formed e ->
  Recovery_readEntry (wire e ++ rest) = (inl (decoded e), len (wire e), rest).
Proof.
  intros [Hf Hc]. rewrite readEntry_wire by exact Hf.
  destruct (decide _) as [_|N]; [reflexivity|congruence].
Qed.

Lemma readEntry_bad_checksum e rest :
  fits e -> Log_calculateChecksum e <> Checksum e ->
  Recovery_readEntry (wire e ++ rest)
  = (inr (checksum_error (Checksum e) (Log_calculateChecksum e)),
     len (wire e), rest).
Proof.
  intros Hf Hc. rewrite readEntry_wire by exact Hf.
  destruct (decide _) as [E|_]; [contradiction|reflexivity].
Qed.

Lemma recover_loop_records es : forall fuel rest entries offset warnings,
  Forall well_formed es ->
  - 2 ^ 63 <= offset < 2 ^ 63 ->
  recover_loop (length es + fuel) (image es ++ rest) entries offset warnings
  = recover_loop fuel rest (entries ++ map decoded es)
                 (int64 (offset + len (image es))) warnings.
Proof.
  induction es as [|e es IH]; intros fuel rest entries offset warnings Hwf Ho.
  - cbn. rewrite app_nil_r. change (len []) with 0.
    rewrite Z.add_0_r, int64_small by exact Ho. reflexivity.
  - inversion_clear Hwf as [|? ? He Hes].
    unfold image. cbn [map concat length Nat.add recover_loop].
    rewrite <- app_assoc, readEntry_well_formed by exact He.
    fold (image es).
    rewrite IH by (try exact Hes; apply int64_range).
    rewrite <- app_assoc, int64_add_l, len_app, Z.add_assoc. reflexivity.
Qed.

Lemma recover_loop_eof fuel entries offset warnings :
  recover_loop (S fuel) [] entries offset warnings = Some (entries, warnings).
Proof. reflexivity. Qed.

Lemma recover_loop_bad e fuel rest entries offset warnings :
  fits e -> Log_calculateChecksum e <> Checksum e ->
  recover_loop (S fuel) (wire e ++ rest) entries offset warnings
  = recover_loop fuel rest entries (int64 (offset + len (wire e)))
      (warnings
       ++ [(offset,
            checksum_error (Checksum e) (Log_calculateChecksum e))]).
Proof.
  intros Hf Hc. cbn [recover_loop].
  rewrite readEntry_bad_checksum by assumption. reflexivity.
Qed.

Lemma length_wire e : (19 <= length (wire e))%nat.
Proof.
  pose proof (len_wire e) as H. pose proof (len_nonneg (Key e)).
  pose proof (len_nonneg (bytes (Value e))). unfold len in *. lia.
Qed.

Lemma length_image es : (length es <= length (image es))%nat.
Proof.
  induction es as [|e es IH]; [cbn; lia|].
  unfold image in *. cbn [map concat length]. rewrite length_app.
  pose proof (length_wire e). lia.
Qed.

(** An intact log is read back whole, without a warning. *)
Lemma scan_records es :
  Forall well_formed es -> scan (image es) = Some (map decoded es, []).
Proof.
  intros Hwf. unfold scan.
  pose proof (length_image es) as Hl.
  replace (S (length (image es)))
    with (length es + S (length (image es) - length es))%nat by lia.
  rewrite <- (app_nil_r (image es)) at 2.
  rewrite recover_loop_records by (try exact Hwf; lia).
  reflexivity.
Qed.

(** *** One changed payload byte *)

Lemma length_PutUint64 z : length (PutUint64 z) = 8%nat.
Proof. apply length_le_split. Qed.
Lemma length_PutUint32 z : length (PutUint32 z) = 4%nat.
Proof. apply length_le_split. Qed.
Lemma length_PutUint16 z : length (PutUint16 z) = 2%nat.
Proof. apply length_le_split. Qed.

Lemma len_insert (l : list byte) j b : len (<[j:=b]> l) = len l.
Proof. unfold len. now rewrite length_insert. Qed.

Lemma flip_key e i b' :
  in_key e i ->
  <[i:=b']> (wire e) = wire (with_Key e (<[(i - 11)%nat:=b']> (Key e))).
Proof.
  intros [H1 H2]. unfold wire, with_Key.
  cbn [Timestamp Operation Key Value Checksum].
  rewrite len_insert.
  rewrite insert_app_r_alt by (rewrite length_PutUint64; lia).
  rewrite length_PutUint64. f_equal.
  rewrite insert_app_r_alt by (cbn [length]; lia). cbn [length]. f_equal.
  rewrite insert_app_r_alt by (rewrite length_PutUint16; lia).
  rewrite length_PutUint16. f_equal.
  rewrite insert_app_l by lia. f_equal. f_equal. lia.
Qed.

Lemma flip_value e i b' :
  in_value e i ->
  <[i:=b']> (wire e)
  = wire (with_Value e
            (Some (<[(i - 15 - length (Key e))%nat:=b']>
                     (bytes (Value e))))).
Proof.
  intros [H1 H2]. unfold wire, with_Value.
  cbn [Timestamp Operation Key Value Checksum bytes].
  rewrite len_insert.
  rewrite insert_app_r_alt by (rewrite length_PutUint64; lia).
  rewrite length_PutUint64. f_equal.
  rewrite insert_app_r_alt by (cbn [length]; lia). cbn [length]. f_equal.
  rewrite insert_app_r_alt by (rewrite length_PutUint16; lia).
  rewrite length_PutUint16. f_equal.
  rewrite insert_app_r_alt by lia. f_equal.
  rewrite insert_app_r_alt by (rewrite length_PutUint32; lia).
  rewrite length_PutUint32. f_equal.
  rewrite insert_app_l by lia. f_equal. f_equal. lia.
Qed.

Lemma wire_lookup_key e i :
  in_key e i -> wire e !! i = Key e !! (i - 11)%nat.
Proof.
  intros [H1 H2]. unfold wire.
  rewrite lookup_app_r by (rewrite length_PutUint64; lia).
  rewrite length_PutUint64.
  rewrite lookup_app_r by (cbn [length]; lia). cbn [length].
  rewrite lookup_app_r by (rewrite length_PutUint16; lia).
  rewrite length_PutUint16.
  rewrite lookup_app_l by lia. f_equal. lia.
Qed.

Lemma wire_lookup_value e i :
  in_value e i ->
  wire e !! i = bytes (Value e) !! (i - 15 - length (Key e))%nat.
Proof.
  intros [H1 H2]. unfold wire.
  rewrite lookup_app_r by (rewrite length_PutUint64; lia).
  rewrite length_PutUint64.
  rewrite lookup_app_r by (cbn [length]; lia). cbn [length].
  rewrite lookup_app_r by (rewrite length_PutUint16; lia).
  rewrite length_PutUint16.
  rewrite lookup_app_r by lia.
  rewrite lookup_app_r by (rewrite length_PutUint32; lia).
  rewrite length_PutUint32.
  rewrite lookup_app_l by lia. f_equal. lia.
Qed.

Lemma checksum_data_bytes e :
  checksum_data e
  = PutUint64 (uint64 (Timestamp e)) ++ [Operation e] ++ Key e
    ++ bytes (Value e).
Proof. reflexivity. Qed.

Lemma changed_key_checksum e j b b' :
  Key e !! j = Some b -> b <> b' ->
  Log_calculateChecksum (with_Key e (<[j:=b']> (Key e)))
  <> Log_calculateChecksum e.
Proof.
  intros Hj Hb. unfold Log_calculateChecksum.
  rewrite !checksum_data_bytes.
  cbn [with_Key Timestamp Operation Key Value].
  pose proof (lookup_lt_Some _ _ _ Hj) as Hlt.
  rewrite (insert_take_drop _ _ _ Hlt).
  rewrite <- (take_drop_middle _ _ _ Hj) at 3.
  replace (PutUint64 (uint64 (Timestamp e)) ++ [Operation e]
           ++ (take j (Key e) ++ b' :: drop (S j) (Key e))
           ++ bytes (Value e))
    with ((PutUint64 (uint64 (Timestamp e)) ++ [Operation e]
           ++ take j (Key e))
          ++ b' :: (drop (S j) (Key e) ++ bytes (Value e)))
    by (rewrite <- !app_assoc; reflexivity).
  replace (PutUint64 (uint64 (Timestamp e)) ++ [Operation e]
           ++ (take j (Key e) ++ b :: drop (S j) (Key e))
           ++ bytes (Value e))
    with ((PutUint64 (uint64 (Timestamp e)) ++ [Operation e]
           ++ take j (Key e))
          ++ b :: (drop (S j) (Key e) ++ bytes (Value e)))
    by (rewrite <- !app_assoc; reflexivity).
  apply crc32_facts.ChecksumIEEE_one_byte. congruence.
Qed.

Lemma changed_value_checksum e j b b' :
  bytes (Value e) !! j = Some b -> b <> b' ->
  Log_calculateChecksum (with_Value e (Some (<[j:=b']> (bytes (Value e)))))
  <> Log_calculateChecksum e.
Proof.
  intros Hj Hb. unfold Log_calculateChecksum.
  rewrite !checksum_data_bytes.
  cbn [with_Value Timestamp Operation Key Value bytes].
  pose proof (lookup_lt_Some _ _ _ Hj) as Hlt.
  rewrite (insert_take_drop _ _ _ Hlt).
  rewrite <- (take_drop_middle _ _ _ Hj) at 3.
  replace (PutUint64 (uint64 (Timestamp e)) ++ [Operation e] ++ Key e
           ++ take j (bytes (Value e))
           ++ b' :: drop (S j) (bytes (Value e)))
    with ((PutUint64 (uint64 (Timestamp e)) ++ [Operation e] ++ Key e
           ++ take j (bytes (Value e)))
          ++ b' :: drop (S j) (bytes (Value e)))
    by (rewrite <- !app_assoc; reflexivity).
  replace (PutUint64 (uint64 (Timestamp e)) ++ [Operation e] ++ Key e
           ++ take j (bytes (Value e))
           ++ b :: drop (S j) (bytes (Value e)))
    with ((PutUint64 (uint64 (Timestamp e)) ++ [Operation e] ++ Key e
           ++ take j (bytes (Value e)))
          ++ b :: drop (S j) (bytes (Value e)))
    by (rewrite <- !app_assoc; reflexivity).
  apply crc32_facts.ChecksumIEEE_one_byte. congruence.
Qed.

(** A record with one payload byte changed is the record of an entry
    that still fits but whose checksum no longer matches. *)
Lemma flipped_record e i b' :
  well_formed e -> in_payload e i -> wire e !! i <> Some b' ->
  exists e',
    <[i:=b']> (wire e) = wire e' /\ fits e'
    /\ Checksum e' = Checksum e
    /\ Log_calculateChecksum e' <> Checksum e'.
Proof.
  intros [(Hts & Hk & Hv & Hc) Hsum] [Hin|Hin] Hne.
  - rewrite wire_lookup_key in Hne by exact Hin.
    destruct (Key e !! (i - 11)%nat) as [b|] eqn:Hj.
    2: { apply lookup_ge_None in Hj. destruct Hin. lia. }
    eexists. split; [apply flip_key, Hin|].
    split; [|split; [reflexivity|]].
    + repeat split; cbn [with_Key Timestamp Key Value Checksum];
        rewrite ?len_insert; lia.
    + cbn [with_Key Checksum]. rewrite Hsum.
      eapply changed_key_checksum; [exact Hj|congruence].
  - rewrite wire_lookup_value in Hne by exact Hin.
    destruct (bytes (Value e) !! (i - 15 - length (Key e))%nat)
      as [b|] eqn:Hj.
    2: { apply lookup_ge_None in Hj. destruct Hin. lia. }
    eexists. split; [apply flip_value, Hin|].
    split; [|split; [reflexivity|]].
    + repeat split; cbn [with_Value Timestamp Key Value Checksum bytes];
        rewrite ?len_insert; lia.
    + cbn [with_Value Checksum]. rewrite Hsum.
      eapply changed_value_checksum; [exact Hj|congruence].
Qed.


Lemma image_cons e es : image (e :: es) = wire e ++ image es.
Proof. reflexivity. Qed.

Lemma RecoverEntries_scan r fs os data :
  database_log fs = Some data -> open_read_ok os = true ->
  Recovery_RecoverEntries r fs os
  = '(entries, warnings) ← scan data; Some (Ok entries, warnings).
Proof.
  intros Hd Ho. unfold Recovery_RecoverEntries. now rewrite Hd, Ho.
Qed.

Lemma scan_with_bad_record before e' after :
  Forall well_formed before -> Forall well_formed after ->
  fits e' -> Log_calculateChecksum e' <> Checksum e' ->
  scan (image before ++ wire e' ++ image after)
  = Some (map decoded before ++ map decoded after,
          [(int64 (len (image before)),
            checksum_error (Checksum e') (Log_calculateChecksum e'))]).
Proof.
  intros Hb Ha Hf Hc. unfold scan.
  pose proof (length_image before). pose proof (length_image after).
  pose proof (length_wire e').
  rewrite !length_app.
  replace (S (length (image before) + (length (wire e')
                                       + length (image after))))
    with (length before
          + S (length after
               + S (length (image before) + length (wire e')
                    + length (image after) - length before
                    - length after - 1)))%nat by lia.
  rewrite recover_loop_records by (try exact Hb; lia).
  rewrite recover_loop_bad by assumption.
  rewrite <- (app_nil_r (image after)).
  rewrite recover_loop_records by (try exact Ha; apply int64_range).
  rewrite recover_loop_eof. cbn [app]. rewrite Z.add_0_l. reflexivity.
Qed.

End persistence_facts.

Module storage_facts.
Import Go Go_facts storage hashing.

Lemma hash_store_bucket ht i b key :
  HashTable_hash (store_bucket ht i b) key = HashTable_hash ht key.
Proof. reflexivity. Qed.

Lemma bucket_at_store_bucket ht i b b0 :
  bucket_at ht i = Some b0 -> bucket_at (store_bucket ht i b) i = Some b.
Proof.
  unfold bucket_at, store_bucket. cbn [buckets].
  destruct (i <? 0); [discriminate|].
  intros H. apply list_lookup_insert_eq. eapply lookup_lt_Some, H.
Qed.

Lemma bucket_at_store_bucket_ne ht i j b :
  0 <= i -> 0 <= j -> i <> j ->
  bucket_at (store_bucket ht i b) j = bucket_at ht j.
Proof.
  intros Hi Hj Hne. unfold bucket_at, store_bucket. cbn [buckets].
  destruct (j <? 0); [reflexivity|].
  apply list_lookup_insert_ne. lia.
Qed.

(** Reading a key back after [Set]. *)
Lemma Get_after_Set ht ht' key value :
  HashTable_Set ht key value = Some ht' ->
  HashTable_Get ht' key = Some (value, true).
Proof.
  unfold HashTable_Set, HashTable_Get. intros H.
  destruct (HashTable_hash ht key) as [i|] eqn:Hh; [|discriminate].
  cbn in H. destruct (bucket_at ht i) as [b|] eqn:Hb; [|discriminate].
  cbn in H. injection H as <-.
  rewrite hash_store_bucket, Hh. cbn.
  rewrite (bucket_at_store_bucket _ _ _ _ Hb). cbn.
  now rewrite lookup_insert_eq.
Qed.

(** A key is absent after [Delete]. *)
Lemma Get_after_Delete ht ht' key removed :
  HashTable_Delete ht key = Some (ht', removed) ->
  HashTable_Get ht' key = Some (None, false).
Proof.
  unfold HashTable_Delete, HashTable_Get. intros H.
  destruct (HashTable_hash ht key) as [i|] eqn:Hh; [|discriminate].
  cbn in H. destruct (bucket_at ht i) as [b|] eqn:Hb; [|discriminate].
  cbn in H. destruct (b !! key) as [v|] eqn:Hk; injection H as <- <-.
  - rewrite hash_store_bucket, Hh. cbn.
    rewrite (bucket_at_store_bucket _ _ _ _ Hb). cbn.
    now rewrite lookup_delete_eq.
  - rewrite Hh. cbn. rewrite Hb. cbn. now rewrite Hk.
Qed.

Lemma fold_hash l a :
  fold_left (fun hash char => int_wrap (hash + char)) l (int64 a)
  = int64 (a + rune_sum l).
Proof.
  revert a. induction l as [|c l IH]; intros a.
  - cbn. now rewrite Z.add_0_r.
  - cbn [fold_left].
    change (int_wrap (int64 a + c)) with (int64 (int64 a + c)).
    rewrite int64_add_l, IH.
    change (rune_sum (c :: l)) with (c + rune_sum l). f_equal. lia.
Qed.

Lemma rune_sum_perm l1 l2 : Permutation l1 l2 -> rune_sum l1 = rune_sum l2.
Proof.
  induction 1 as [|x l l' _ IH|x y l|l l' l'' _ IH1 _ IH2];
    unfold rune_sum in *; cbn [fold_right] in *; lia.
Qed.

(** The bucket of a key depends only on the sum of its runes. *)
Lemma hash_sum ht key :
  HashTable_hash ht key
  = if bucketSize ht =? 0 then None
    else Some (Z.rem (int64 (rune_sum (runes key))) (bucketSize ht)).
Proof.
  pose proof (fold_hash (runes key) 0) as H.
  change (int64 0) with 0 in H. rewrite Z.add_0_l in H.
  unfold HashTable_hash. now rewrite H.
Qed.

Lemma hash_perm ht k1 k2 :
  Permutation (runes k1) (runes k2) ->
  HashTable_hash ht k1 = HashTable_hash ht k2.
Proof. intros H. rewrite !hash_sum. now rewrite (rune_sum_perm _ _ H). Qed.
End storage_facts.

Module database_facts.
Import Go Go_facts storage storage_facts persistence database.
Local Open Scope string_scope.
Local Open Scope list_scope.
Local Open Scope Z_scope.

Lemma Set_success db fs os key value db' fs' :
  DB_Set db fs os key value = Some (db', fs', None) ->
  isClosed db = false /\ key <> [] /\ isClosed db' = false
  /\ HashTable_Set (storage db) key value = Some (storage db').
Proof.
  unfold DB_Set. intros H.
  destruct (isClosed db) eqn:Hc; [discriminate|].
  destruct (decide (key = [])) as [|Hk]; [discriminate|].
  destruct value as [v|]; [|discriminate].
  destruct (HashTable_Set (storage db) key (Some v)) as [st|] eqn:Hs;
    [|discriminate].
  cbn in H.
  destruct (Log_Append (log db) fs os OperationSet key (Some v))
    as [[l fs''] [err|]].
  - destruct (HashTable_Delete st key) as [[st' r]|]; cbn in H; discriminate.
  - injection H as <- <-. cbn. auto.
Qed.

Lemma Delete_success db fs os key db' fs' :
  DB_Delete db fs os key = Some (db', fs', None) ->
  isClosed db = false /\ key <> [] /\ isClosed db' = false
  /\ exists removed,
       HashTable_Delete (storage db) key = Some (storage db', removed).
Proof.
  unfold DB_Delete. intros H.
  destruct (isClosed db) eqn:Hc; [discriminate|].
  destruct (decide (key = [])) as [|Hk]; [discriminate|].
  destruct (HashTable_Get (storage db) key) as [[v ex]|]; [|discriminate].
  cbn in H. destruct ex; cbn in H; [|discriminate].
  destruct (HashTable_Delete (storage db) key) as [[st r]|] eqn:Hd;
    [|discriminate].
  cbn in H.
  destruct (Log_Append (log db) fs os OperationDelete key None)
    as [[l fs''] [err|]]; [discriminate|].
  injection H as <- <-. cbn. eauto.
Qed.

Lemma Get_open db key :
  isClosed db = false -> key <> [] ->
  DB_Get db key
  = '(value, exists_) ← HashTable_Get (storage db) key;
    if negb exists_
    then Some (None, Some (NewDatabaseError "get" key ErrKeyNotFound))
    else Some (value, None).
Proof.
  intros Hc Hk. unfold DB_Get. rewrite Hc.
  destruct (decide (key = [])); [contradiction|reflexivity].
Qed.
End database_facts.

(** * The claims *)

Import Go Go_facts storage hashing storage_facts persistence records
  persistence_facts database database_facts scenarios.
Local Open Scope string_scope.
Local Open Scope list_scope.
Local Open Scope Z_scope.

Lemma checksum_with_Checksum entry c :
  Log_calculateChecksum (with_Checksum entry c) = Log_calculateChecksum entry.
Proof. reflexivity. Qed.

(** What [Append] builds is well formed when the clock is an [int64], the
    key fits sixteen bits of length and the value thirty-two. *)
Lemma new_entry_well_formed os operation key value :
  - 2 ^ 63 <= now os < 2 ^ 63 -> len key <= 65535 ->
  len (bytes value) < 2 ^ 32 ->
  well_formed (new_entry os operation key value).
Proof.
  intros Ht Hk Hv. unfold well_formed, fits, new_entry.
  cbn [with_Checksum Timestamp Key Value Checksum].
  rewrite checksum_with_Checksum.
  repeat split; try assumption; try lia;
    apply crc32_facts.ChecksumIEEE_range.
Qed.

Lemma decoded_same e : Value e <> Some [] -> decoded e = e.
Proof.
  intros H. destruct e as [t o k [[|b v]|] c]; cbn in *;
    [congruence|reflexivity|reflexivity].
Qed.

Lemma bytes_decoded e : bytes (Value (decoded e)) = bytes (Value e).
Proof. destruct e as [t o k [[|b v]|] c]; reflexivity. Qed.

Lemma len_long_key : len long_key = 65536.
Proof. vm_compute. reflexivity. Qed.

(** C5, counterexample.  An entry whose key is 65536 bytes long is not
    serialized at all: the encoder returns an error and no bytes, so there
    is nothing to decode.  And an entry with an empty, non-nil value comes
    back with a nil value. *)
Lemma long_key_does_not_round_trip :
  Log_serializeEntry (new_entry (os_ok 0) OperationSet long_key val_1)
  = Err (Errorf "key is too long" [])
  /\ (let e := new_entry (os_ok 0) OperationSet key_a (Some []) in
      exists data e',
        Log_serializeEntry e = Ok data
        /\ Recovery_readEntry data = (inl e', len data, [])
        /\ Value e = Some [] /\ Value e' = None).
Proof.
  split.
  - apply serializeEntry_too_long.
    cbn [new_entry with_Checksum Key]. rewrite len_long_key. lia.
  - cbv zeta. eexists. eexists. split; [|split; [|split]].
    + vm_compute. reflexivity.
    + vm_compute. reflexivity.
    + reflexivity.
    + reflexivity.
Qed.

(** C5, amended.  For every entry [Append] builds with an [int64] time
    stamp, a key of at most 65535 bytes and a value shorter than 2^32
    bytes, whatever the operation byte: serializing it and decoding the
    bytes gives back the time stamp, the operation, the key and the bytes
    of the value, the whole input is consumed, and the checksum of the
    decoded entry validates.  A value of no bytes is decoded as [nil];
    every other entry comes back equal to the original. *)
Theorem record_round_trip (os : OS) (operation : LogOperation)
    (key : list byte) (value : option (list byte)) :
  - 2 ^ 63 <= now os < 2 ^ 63 ->
  len key <= 65535 ->
  len (bytes value) < 2 ^ 32 ->
  exists data e',
    Log_serializeEntry (new_entry os operation key value) = Ok data
    /\ Recovery_readEntry data = (inl e', len data, [])
    /\ Timestamp e' = now os
    /\ Operation e' = operation
    /\ Key e' = key
    /\ bytes (Value e') = bytes value
    /\ (value <> Some [] -> e' = new_entry os operation key value)
    /\ Checksum e' = Log_calculateChecksum e'.
Proof.
  intros Ht Hk Hv.
  pose proof (new_entry_well_formed os operation key value Ht Hk Hv) as Hwf.
  exists (wire (new_entry os operation key value)),
         (decoded (new_entry os operation key value)).
  split; [apply serializeEntry_wire; exact Hk|].
  split.
  { rewrite <- (app_nil_r (wire _)) at 1.
    apply readEntry_well_formed, Hwf. }
  split; [reflexivity|]. split; [reflexivity|]. split; [reflexivity|].
  split; [apply bytes_decoded|].
  split; [intros Hne; apply decoded_same; exact Hne|].
  destruct Hwf as [_ Hsum]. unfold Log_calculateChecksum in *.
  rewrite checksum_data_decoded. exact Hsum.
Qed.

Lemma record_round_trip_witness :
  exists data e',
    Log_serializeEntry (new_entry (os_ok 7) OperationSet key_a val_1) = Ok data
    /\ Recovery_readEntry data = (inl e', len data, [])
    /\ Timestamp e' = now (os_ok 7)
    /\ Operation e' = OperationSet
    /\ Key e' = key_a
    /\ bytes (Value e') = bytes val_1
    /\ (val_1 <> Some [] -> e' = new_entry (os_ok 7) OperationSet key_a val_1)
    /\ Checksum e' = Log_calculateChecksum e'.
Proof.
  apply (record_round_trip (os_ok 7) OperationSet key_a val_1).
  - cbn. lia.
  - vm_compute. discriminate.
  - vm_compute. reflexivity.
Defined.



(** C7.  On an open database: after a successful [Set(k, v)], [Get(k)]
    returns [v] and no error; after a successful [Delete(k)], [Get(k)]
    returns the not-found error; [Set] with the empty key returns
    [ErrEmptyKey] and leaves the database, and so [Size()], as it was. *)
Theorem basic_crud (db : DB) (fs : FS) (os : OS) (k : list byte)
    (v : option (list byte)) :
  (forall db' fs',
     DB_Set db fs os k v = Some (db', fs', None) ->
     DB_Get db' k = Some (v, None))
  /\ (forall db' fs',
        DB_Delete db fs os k = Some (db', fs', None) ->
        DB_Get db' k
        = Some (None, Some (NewDatabaseError "get" k ErrKeyNotFound)))
  /\ (isClosed db = false ->
      DB_Set db fs os [] v = Some (db, fs, Some ErrEmptyKey)
      /\ forall db' fs' err,
           DB_Set db fs os [] v = Some (db', fs', err) ->
           DB_Size db' = DB_Size db).
Proof.
  split; [|split].
  - intros db' fs' H.
    apply Set_success in H as (_ & Hk & Hc & Hs).
    rewrite Get_open by assumption.
    rewrite (Get_after_Set _ _ _ _ Hs). reflexivity.
  - intros db' fs' H.
    apply Delete_success in H as (_ & Hk & Hc & r & Hd).
    rewrite Get_open by assumption.
    rewrite (Get_after_Delete _ _ _ _ Hd). reflexivity.
  - intros Hc.
    assert (H : DB_Set db fs os [] v = Some (db, fs, Some ErrEmptyKey)).
    { unfold DB_Set. rewrite Hc.
      destruct (decide ([] = [])); [reflexivity|contradiction]. }
    split; [exact H|].
    intros db' fs' err H'. rewrite H in H'. now injection H' as <- _ _.
Qed.

Lemma basic_crud_witness :
  let s1 := after (DB_Set db_open fs_open (os_ok 1) key_a val_1) in
  let s2 := after (DB_Delete s1.1 s1.2 (os_ok 2) key_a) in
  DB_Get s1.1 key_a = Some (val_1, None)
  /\ DB_Get s2.1 key_a
     = Some (None, Some (NewDatabaseError "get" key_a ErrKeyNotFound))
  /\ DB_Set db_open fs_open (os_ok 3) [] val_1
     = Some (db_open, fs_open, Some ErrEmptyKey).
Proof.
  intros s1 s2. split; [|split].
  - apply (proj1 (basic_crud db_open fs_open (os_ok 1) key_a val_1)
             s1.1 s1.2).
    vm_compute. reflexivity.
  - apply (proj1 (proj2 (basic_crud s1.1 s1.2 (os_ok 2) key_a val_1))
             s2.1 s2.2).
    vm_compute. reflexivity.
  - apply (proj2 (proj2 (basic_crud db_open fs_open (os_ok 3) key_a val_1))).
    reflexivity.
Defined.

Lemma fresh_is_open : New None no_files (os_ok 0) = Some (Ok db_open, fs_open).
Proof. vm_compute. reflexivity. Qed.

(** C10.  On a closed database the closed check comes before input
    validation: [Set], [Get] and [Delete], also with an empty key, and
    [Set] with a nil value, return [ErrDatabaseClosed] and leave the
    database and the files as they were. *)
Theorem closed_check_comes_first (db : DB) (fs : FS) (os : OS)
    (k : list byte) (v : option (list byte)) :
  isClosed db = true ->
  DB_Set db fs os k v = Some (db, fs, Some ErrDatabaseClosed)
  /\ DB_Set db fs os [] v = Some (db, fs, Some ErrDatabaseClosed)
  /\ DB_Set db fs os k None = Some (db, fs, Some ErrDatabaseClosed)
  /\ DB_Get db k = Some (None, Some ErrDatabaseClosed)
  /\ DB_Get db [] = Some (None, Some ErrDatabaseClosed)
  /\ DB_Delete db fs os k = Some (db, fs, Some ErrDatabaseClosed)
  /\ DB_Delete db fs os [] = Some (db, fs, Some ErrDatabaseClosed).
Proof.
  intros Hc. unfold DB_Set, DB_Get, DB_Delete. rewrite Hc. repeat split.
Qed.

(** A closed database: what a successful [Close] leaves of [db_open]. *)
Lemma closed_check_comes_first_witness :
  let db := (after (DB_Close db_open fs_open (os_ok 1))).1 in
  DB_Set db fs_open (os_ok 2) [] None
  = Some (db, fs_open, Some ErrDatabaseClosed)
  /\ DB_Get db [] = Some (None, Some ErrDatabaseClosed)
  /\ DB_Delete db fs_open (os_ok 2) []
     = Some (db, fs_open, Some ErrDatabaseClosed).
Proof.
  intros db.
  destruct (closed_check_comes_first db fs_open (os_ok 2) [] None)
    as (H1 & _ & _ & H4 & _ & H6 & _).
  - reflexivity.
  - exact (conj H1 (conj H4 H6)).
Defined.




(** C9, counterexample.  The hash is the sum of the character codes, so
    anagrams are never told apart: ["ab"] and ["ba"] are distinct, are
    anagrams, and get the same bucket of the default table, and so does
    every other pair of anagrams in every table. *)
Lemma anagram_keys_collide :
  key_ab <> key_ba
  /\ Permutation (runes key_ab) (runes key_ba)
  /\ HashTable_hash (storage db_open) key_ab = Some 195
  /\ HashTable_hash (storage db_open) key_ba = Some 195
  /\ (forall ht k1 k2,
        Permutation (runes k1) (runes k2) ->
        HashTable_hash ht k1 = HashTable_hash ht k2).
Proof.
  split; [discriminate|]. split; [vm_compute; apply perm_swap|].
  split; [reflexivity|]. split; [reflexivity|].
  intros ht k1 k2. apply hash_perm.
Qed.

(** C9, amended.  The shard-selection function is the sum of the key's
    character codes (as a 64-bit integer) modulo the number of buckets;
    two keys that are anagrams of each other, having the same characters
    rearranged, are always assigned to the same shard. *)
Theorem anagrams_share_a_bucket (ht : HashTable) (k1 k2 : list byte) :
  HashTable_hash ht k1
  = (if bucketSize ht =? 0 then None
     else Some (Z.rem (int64 (rune_sum (runes k1))) (bucketSize ht)))
  /\ (Permutation (runes k1) (runes k2) ->
      HashTable_hash ht k1 = HashTable_hash ht k2).
Proof. split; [apply hash_sum|apply hash_perm]. Qed.

Lemma anagrams_share_a_bucket_witness :
  HashTable_hash (storage db_open) key_ab
  = HashTable_hash (storage db_open) key_ba.
Proof.
  apply (proj2 (anagrams_share_a_bucket (storage db_open) key_ab key_ba)).
  vm_compute. apply perm_swap.
Defined.

(** C1, the code at a failing input.  In a fresh database, after
    [Set("a", "1")], a compaction that returns no error leaves the index
    holding ["a"] but the log file empty: the index rebuilt from that log
    does not hold ["a"], and a database opened on it does not either. *)
Theorem compaction_discards_live_entries :
  let s1 := after (DB_Set db_open fs_open (os_ok 1) key_a val_1) in
  let r := Log_Compact (log s1.1) s1.2 (os_ok 2) in
  let db2 := with_log s1.1 r.1.1 in
  let fs2 := r.1.2 in
  r.2 = None
  /\ HashTable_Get (storage db2) key_a = Some (val_1, true)
  /\ database_log fs2 = Some []
  /\ (st ← rebuilt db2 fs2 (os_ok 3); HashTable_Get st key_a)
     = Some (None, false)
  /\ (r' ← New None fs2 (os_ok 3);
      match r' with
      | (Ok db3, _) => DB_Get db3 key_a
      | (Err _, _) => None
      end)
     = Some (None, Some (NewDatabaseError "get" key_a ErrKeyNotFound)).
Proof. vm_compute. repeat split. Qed.

(** C2, the code at a failing input.  With ["a"] set to ["1"], a
    [Set("a", "2")] whose log write fails returns an error and leaves ["a"]
    absent instead of restoring ["1"]; a [Delete("a")] whose log write
    fails returns an error and leaves ["a"] deleted. *)
Theorem failed_append_is_not_rolled_back :
  let s1 := after (DB_Set db_open fs_open (os_ok 1) key_a val_1) in
  let failure :=
    Errorf_w "failed to flush log to disk: %w" (OSError "write") in
  let set2 := DB_Set s1.1 s1.2 (os_write_fails 2) key_a val_2 in
  let del2 := DB_Delete s1.1 s1.2 (os_write_fails 2) key_a in
  DB_Get s1.1 key_a = Some (val_1, None)
  /\ set2 = Some ((after set2).1, (after set2).2,
                  Some (NewDatabaseError "set" key_a failure))
  /\ DB_Get (after set2).1 key_a
     = Some (None, Some (NewDatabaseError "get" key_a ErrKeyNotFound))
  /\ del2 = Some ((after del2).1, (after del2).2,
                  Some (NewDatabaseError "delete" key_a failure))
  /\ DB_Get (after del2).1 key_a
     = Some (None, Some (NewDatabaseError "get" key_a ErrKeyNotFound)).
Proof. vm_compute. repeat split. Qed.

(** C3, the code at a failing input.  After [Set("a", "1")] and a
    [Set("a", "2")] whose log write fails, the index does not hold ["a"],
    while replaying the records of the log into an empty index gives ["a"]
    the value ["1"]; the same after a [Delete("a")] whose log write
    fails. *)
Theorem index_differs_from_replayed_log :
  let s1 := after (DB_Set db_open fs_open (os_ok 1) key_a val_1) in
  let s2 := after (DB_Set s1.1 s1.2 (os_write_fails 2) key_a val_2) in
  let s3 := after (DB_Delete s1.1 s1.2 (os_write_fails 2) key_a) in
  HashTable_Get (storage s2.1) key_a = Some (None, false)
  /\ (st ← rebuilt s2.1 s2.2 (os_ok 3); HashTable_Get st key_a)
     = Some (val_1, true)
  /\ HashTable_Get (storage s3.1) key_a = Some (None, false)
  /\ (st ← rebuilt s3.1 s3.2 (os_ok 3); HashTable_Get st key_a)
     = Some (val_1, true).
Proof. vm_compute. repeat split. Qed.

(** C4. In a log made of well-formed records, changing one byte of the
    key or of the value of one record makes recovery skip exactly that
    record: its checksum validation fails (one warning, at the offset of
    that record), and the entries of all the records before it and after
    it come back as from the intact log, in their order. *)
Theorem corrupted_record_is_skipped (r : Recovery) (os : OS)
    (tmp : option (list byte)) (before after : list LogEntry)
    (e : LogEntry) (i : nat) (b' : byte) :
  Forall well_formed (before ++ e :: after) ->
  in_payload e i ->
  wire e !! i <> Some b' ->
  open_read_ok os = true ->
  Recovery_RecoverEntries r
    {| database_log := Some (image (before ++ e :: after));
       temp_log := tmp |} os
  = Some (Ok (map decoded before ++ decoded e :: map decoded after), [])
  /\ exists got,
       got <> Checksum e
       /\ Recovery_RecoverEntries r
            {| database_log :=
                 Some (image before ++ <[i:=b']> (wire e) ++ image after);
               temp_log := tmp |} os
          = Some (Ok (map decoded before ++ map decoded after),
                  [(int64 (len (image before)),
                    checksum_error (Checksum e) got)]).
Proof.
  intros Hwf Hin Hne Hos.
  split.
  - erewrite RecoverEntries_scan by (try exact Hos; reflexivity).
    rewrite scan_records by exact Hwf.
    cbn. now rewrite map_app.
  - pose proof Hwf as Hwf'.
    apply Forall_app in Hwf' as [Hb Hea].
    inversion_clear Hea as [|? ? He Ha].
    destruct (flipped_record e i b' He Hin Hne)
      as (e' & Hflip & Hfits & Hsame & Hbad).
    exists (Log_calculateChecksum e'). split; [congruence|].
    erewrite RecoverEntries_scan by (try exact Hos; reflexivity).
    rewrite Hflip, scan_with_bad_record by assumption.
    cbn. now rewrite Hsame.
Qed.

Lemma corrupted_record_is_skipped_witness :
  let e1 := new_entry (os_ok 1) OperationSet key_a val_1 in
  let e2 := new_entry (os_ok 2) OperationSet key_ab val_2 in
  let e3 := new_entry (os_ok 3) OperationDelete key_a None in
  exists got,
    got <> Checksum e2
    /\ Recovery_RecoverEntries (NewRecovery "./data")
         {| database_log :=
              Some (image [e1] ++ <[11%nat:=Byte.x7a]> (wire e2) ++ image [e3]);
            temp_log := None |} (os_ok 4)
       = Some (Ok (map decoded [e1] ++ map decoded [e3]),
               [(int64 (len (image [e1])),
                 checksum_error (Checksum e2) got)]).
Proof.
  intros e1 e2 e3.
  refine (proj2 (corrupted_record_is_skipped (NewRecovery "./data") (os_ok 4)
                   None [e1] [e3] e2 11%nat Byte.x7a _ _ _ _)).
  - repeat constructor;
      (apply new_entry_well_formed; [cbn; lia|vm_compute; discriminate
                                    |vm_compute; reflexivity]).
  - left. unfold in_key. cbn. lia.
  - vm_compute. discriminate.
  - reflexivity.
Defined.

(** * Further facts *)

Module runes_facts.
Import Go Go_facts hashing.

Lemma lor_range n a b :
  0 <= a < 2 ^ n -> 0 <= b < 2 ^ n -> 0 <= Z.lor a b < 2 ^ n.
Proof.
  intros Ha Hb.
  assert (Hn : 0 <= n).
  { destruct (Z.leb_spec 0 n) as [|Hneg]; [assumption|].
    rewrite (Z.pow_neg_r 2 n Hneg) in Ha. lia. }
  assert (H0 : 0 <= Z.lor a b) by (apply Z.lor_nonneg; lia).
  split; [exact H0|].
  destruct (Z.eq_dec (Z.lor a b) 0) as [E|E]; [rewrite E; lia|].
  apply Z.log2_lt_pow2; [lia|].
  rewrite Z.log2_lor by lia.
  destruct (Z.eq_dec a 0) as [->|Na], (Z.eq_dec b 0) as [->|Nb].
  - rewrite Z.lor_0_l in E. lia.
  - change (Z.log2 0) with 0. assert (Z.log2 b < n) by (apply Z.log2_lt_pow2; lia).
    pose proof (Z.log2_nonneg b). lia.
  - change (Z.log2 0) with 0. assert (Z.log2 a < n) by (apply Z.log2_lt_pow2; lia).
    pose proof (Z.log2_nonneg a). lia.
  - assert (Z.log2 a < n) by (apply Z.log2_lt_pow2; lia).
    assert (Z.log2 b < n) by (apply Z.log2_lt_pow2; lia). lia.
Qed.

Lemma low6_range b : 0 <= low6 b < 2 ^ 6.
Proof.
  unfold low6. change 0x3F with (Z.ones 6). rewrite Z.land_ones by lia.
  apply Z.mod_pos_bound. lia.
Qed.

Lemma lead_range c k : 0 <= k -> 0 <= Z.land c (Z.ones k) < 2 ^ k.
Proof. intros Hk. rewrite Z.land_ones by lia. apply Z.mod_pos_bound. lia. Qed.

Lemma shiftl_range a k n :
  0 <= k -> 0 <= n -> 0 <= a < 2 ^ k -> 0 <= Z.shiftl a n < 2 ^ (k + n).
Proof.
  intros Hk Hn Ha. rewrite Z.shiftl_mul_pow2, Z.pow_add_r by lia. nia.
Qed.

Lemma rune2_range c0 b1 :
  0 <= Z.lor (Z.shiftl (Z.land c0 0x1F) 6) (low6 b1) <= MaxRune.
Proof.
  pose proof (lead_range c0 5 ltac:(lia)) as H0.
  change (Z.ones 5) with 0x1F in H0.
  pose proof (shiftl_range _ 5 6 ltac:(lia) ltac:(lia) H0) as H1.
  pose proof (low6_range b1) as H2.
  change (2 ^ (5 + 6)) with (2 ^ 11) in H1. change (2 ^ 6) with 64 in H2.
  assert (H2' : 0 <= low6 b1 < 2 ^ 11) by (change (2 ^ 11) with 2048; lia).
  pose proof (lor_range 11 _ _ H1 H2') as H.
  unfold MaxRune. change (2 ^ 11) with 2048 in H. lia.
Qed.

Lemma rune3_range c0 b1 b2 :
  0 <= Z.lor (Z.lor (Z.shiftl (Z.land c0 0x0F) 12) (Z.shiftl (low6 b1) 6))
             (low6 b2) <= MaxRune.
Proof.
  pose proof (lead_range c0 4 ltac:(lia)) as H0.
  change (Z.ones 4) with 0x0F in H0.
  pose proof (shiftl_range _ 4 12 ltac:(lia) ltac:(lia) H0) as H1.
  pose proof (shiftl_range _ 6 6 ltac:(lia) ltac:(lia) (low6_range b1)) as H2.
  pose proof (low6_range b2) as H3.
  change (2 ^ (4 + 12)) with (2 ^ 16) in H1.
  change (2 ^ (6 + 6)) with 4096 in H2.
  change (2 ^ 6) with 64 in H3.
  assert (H2' : 0 <= Z.shiftl (low6 b1) 6 < 2 ^ 16)
    by (change (2 ^ 16) with 65536; lia).
  assert (H3' : 0 <= low6 b2 < 2 ^ 16) by (change (2 ^ 16) with 65536; lia).
  pose proof (lor_range 16 _ _ H1 H2') as H4.
  pose proof (lor_range 16 _ _ H4 H3') as H.
  unfold MaxRune. change (2 ^ 16) with 65536 in H. lia.
Qed.

Lemma rune4_nonneg c0 b1 b2 b3 :
  0 <= Z.lor (Z.lor (Z.lor (Z.shiftl (Z.land c0 0x07) 18)
                           (Z.shiftl (low6 b1) 12))
                    (Z.shiftl (low6 b2) 6)) (low6 b3).
Proof.
  pose proof (lead_range c0 3 ltac:(lia)) as H0.
  change (Z.ones 3) with 0x07 in H0.
  pose proof (low6_range b1). pose proof (low6_range b2).
  pose proof (low6_range b3).
  rewrite !Z.lor_nonneg, !Z.shiftl_nonneg. lia.
Qed.

Lemma rune_sum_cons c l : rune_sum (c :: l) = c + rune_sum l.
Proof. reflexivity. Qed.

Lemma len_cons {A} (a : A) l : len (a :: l) = 1 + len l.
Proof. unfold len. cbn [length]. lia. Qed.

(** The runes of a key are code points, at most one per byte. *)
Lemma rune_sum_runes (n : nat) : forall s : list byte,
  (length s <= n)%nat -> 0 <= rune_sum (runes s) <= MaxRune * len s.
Proof.
  induction n as [|n IH]; intros s Hs.
  - destruct s; [|cbn in Hs; lia]. vm_compute. split; discriminate.
  - destruct s as [|b0 s1]; [vm_compute; split; discriminate|].
    cbn [length] in Hs.
    pose proof (byte.unsigned_range b0) as Hb0.
    assert (Hinv : 0 <= rune_sum (RuneError :: runes s1)
                   <= MaxRune * len (b0 :: s1)).
    { rewrite rune_sum_cons, len_cons.
      pose proof (IH s1 ltac:(lia)). unfold RuneError, MaxRune in *. lia. }
    cbn [runes]. cbv zeta.
    destruct (byte.unsigned b0 <? RuneSelf) eqn:E0.
    { rewrite rune_sum_cons, len_cons. pose proof (IH s1 ltac:(lia)).
      apply Z.ltb_lt in E0. unfold RuneSelf, MaxRune in *. lia. }
    destruct ((192 <=? byte.unsigned b0) && (byte.unsigned b0 <? 224)).
    { destruct s1 as [|b1 s2]; [exact Hinv|].
      destruct (is_cont b1 && (127 <? _)); [|exact Hinv].
      rewrite rune_sum_cons, !len_cons.
      pose proof (IH s2 ltac:(cbn [length] in Hs; lia)).
      pose proof (rune2_range (byte.unsigned b0) b1).
      pose proof (len_nonneg s2). unfold MaxRune in *. lia. }
    destruct ((224 <=? byte.unsigned b0) && (byte.unsigned b0 <? 240)).
    { destruct s1 as [|b1 [|b2 s3]]; try exact Hinv.
      destruct (is_cont b1 && is_cont b2 && (2047 <? _) && negb _);
        [|exact Hinv].
      rewrite rune_sum_cons, !len_cons.
      pose proof (IH s3 ltac:(cbn [length] in Hs; lia)).
      pose proof (rune3_range (byte.unsigned b0) b1 b2).
      pose proof (len_nonneg s3). unfold MaxRune in *. lia. }
    destruct ((240 <=? byte.unsigned b0) && (byte.unsigned b0 <? 248)).
    { destruct s1 as [|b1 [|b2 [|b3 s4]]]; try exact Hinv.
      destruct (is_cont b1 && is_cont b2 && is_cont b3 && (65535 <? _)
                && (_ <=? MaxRune)) eqn:E; [|exact Hinv].
      apply andb_prop in E as [_ E]. apply Z.leb_le in E.
      rewrite rune_sum_cons, !len_cons.
      pose proof (IH s4 ltac:(cbn [length] in Hs; lia)).
      pose proof (rune4_nonneg (byte.unsigned b0) b1 b2 b3).
      pose proof (len_nonneg s4). unfold MaxRune in *. lia. }
    exact Hinv.
Qed.
End runes_facts.

Module storage_more.
Import Go Go_facts storage hashing storage_facts tables runes_facts.

(** [Set] on one key leaves what [Get] returns for every other key. *)
Lemma Get_other_after_Set ht ht' key value key' :
  HashTable_Set ht key value = Some ht' -> key' <> key ->
  HashTable_Get ht' key' = HashTable_Get ht key'.
Proof.
  unfold HashTable_Set. intros H Hne.
  destruct (HashTable_hash ht key) as [i|] eqn:Hh; [|discriminate].
  cbn in H. destruct (bucket_at ht i) as [b|] eqn:Hb; [|discriminate].
  cbn in H. injection H as <-.
  unfold HashTable_Get. rewrite hash_store_bucket.
  destruct (HashTable_hash ht key') as [j|]; [|reflexivity]. cbn.
  destruct (Z.eq_dec i j) as [<-|Hij].
  - rewrite (bucket_at_store_bucket _ _ _ _ Hb), Hb. cbn.
    now rewrite lookup_insert_ne by congruence.
  - unfold bucket_at in *. cbn [store_bucket buckets].
    destruct (i <? 0) eqn:Hi; [discriminate|].
    destruct (j <? 0) eqn:Hj; [reflexivity|].
    rewrite list_lookup_insert_ne by lia. reflexivity.
Qed.

Lemma Get_other_after_Delete ht ht' key removed key' :
  HashTable_Delete ht key = Some (ht', removed) -> key' <> key ->
  HashTable_Get ht' key' = HashTable_Get ht key'.
Proof.
  unfold HashTable_Delete. intros H Hne.
  destruct (HashTable_hash ht key) as [i|] eqn:Hh; [|discriminate].
  cbn in H. destruct (bucket_at ht i) as [b|] eqn:Hb; [|discriminate].
  cbn in H. destruct (b !! key); injection H as <- <-; [|reflexivity].
  unfold HashTable_Get. rewrite hash_store_bucket.
  destruct (HashTable_hash ht key') as [j|]; [|reflexivity]. cbn.
  destruct (Z.eq_dec i j) as [<-|Hij].
  - rewrite (bucket_at_store_bucket _ _ _ _ Hb), Hb. cbn.
    now rewrite lookup_delete_ne by congruence.
  - unfold bucket_at in *. cbn [store_bucket buckets].
    destruct (i <? 0) eqn:Hi; [discriminate|].
    destruct (j <? 0) eqn:Hj; [reflexivity|].
    rewrite list_lookup_insert_ne by lia. reflexivity.
Qed.

(** [Delete] reports whether the key was there. *)
Lemma Delete_reports_presence ht ht' key removed :
  HashTable_Delete ht key = Some (ht', removed) ->
  exists value, HashTable_Get ht key = Some (value, removed)
  /\ (removed = false -> ht' = ht).
Proof.
  unfold HashTable_Delete, HashTable_Get. intros H.
  destruct (HashTable_hash ht key) as [i|] eqn:Hh; [|discriminate].
  cbn in *. destruct (bucket_at ht i) as [b|] eqn:Hb; [|discriminate].
  cbn in *. destruct (b !! key) as [v|]; injection H as <- <-.
  - exists v. split; [reflexivity|discriminate].
  - exists None. split; [reflexivity|reflexivity].
Qed.

Lemma NewHashTable_ok n ht :
  0 < n -> NewHashTable n = Some ht -> table_ok ht.
Proof.
  unfold NewHashTable. intros Hn H.
  destruct (Z.ltb_spec n 0); [lia|]. injection H as <-.
  split; [exact Hn|]. split.
  - unfold len. cbn. rewrite repeat_length. lia.
  - cbn. intros i b k Hb [v Hv].
    apply list_elem_of_lookup_2, list_elem_of_In, repeat_spec in Hb. subst b.
    rewrite lookup_empty in Hv. discriminate.
Qed.

Lemma store_bucket_ok ht (i : nat) b0 b :
  table_ok ht -> buckets ht !! i = Some b0 ->
  (forall k, is_Some (b !! k) ->
             HashTable_hash ht k = Some (Z.of_nat i)) ->
  table_ok (store_bucket ht (Z.of_nat i) b).
Proof.
  intros (Hn & Hl & Hk) Hb0 Hb. split; [exact Hn|]. split.
  - cbn. unfold len in *. now rewrite length_insert.
  - cbn [store_bucket buckets]. rewrite Nat2Z.id.
    intros j bj k Hj Hin. rewrite hash_store_bucket.
    destruct (Nat.eq_dec i j) as [<-|Hij].
    + rewrite list_lookup_insert_eq in Hj by (eapply lookup_lt_Some, Hb0).
      injection Hj as <-. apply Hb, Hin.
    + rewrite list_lookup_insert_ne in Hj by exact Hij.
      eapply Hk; eassumption.
Qed.

Lemma hash_bucket ht key i b :
  HashTable_hash ht key = Some i -> bucket_at ht i = Some b ->
  0 <= i /\ buckets ht !! Z.to_nat i = Some b.
Proof.
  unfold bucket_at. intros _ H.
  destruct (Z.ltb_spec i 0); [discriminate|]. split; [lia|exact H].
Qed.

(** [Set] and [Delete] keep every key in the bucket of its hash. *)
Lemma Set_ok ht ht' key value :
  table_ok ht -> HashTable_Set ht key value = Some ht' -> table_ok ht'.
Proof.
  unfold HashTable_Set. intros Hok H.
  destruct (HashTable_hash ht key) as [i|] eqn:Hh; [|discriminate].
  cbn in H. destruct (bucket_at ht i) as [b|] eqn:Hb; [|discriminate].
  cbn in H. injection H as <-.
  destruct (hash_bucket _ _ _ _ Hh Hb) as [Hi Hb'].
  rewrite <- (Z2Nat.id i Hi). eapply store_bucket_ok; [exact Hok|exact Hb'|].
  intros k Hin. rewrite Z2Nat.id by exact Hi.
  destruct (decide (k = key)) as [->|Hne]; [exact Hh|].
  rewrite lookup_insert_ne in Hin by congruence.
  destruct Hok as (_ & _ & Hk).
  rewrite (Hk _ _ _ Hb' Hin). now rewrite Z2Nat.id.
Qed.

Lemma Delete_ok ht ht' key removed :
  table_ok ht -> HashTable_Delete ht key = Some (ht', removed) ->
  table_ok ht'.
Proof.
  unfold HashTable_Delete. intros Hok H.
  destruct (HashTable_hash ht key) as [i|] eqn:Hh; [|discriminate].
  cbn in H. destruct (bucket_at ht i) as [b|] eqn:Hb; [|discriminate].
  cbn in H. destruct (b !! key); injection H as <- <-; [|exact Hok].
  destruct (hash_bucket _ _ _ _ Hh Hb) as [Hi Hb'].
  rewrite <- (Z2Nat.id i Hi). eapply store_bucket_ok; [exact Hok|exact Hb'|].
  intros k Hin. rewrite Z2Nat.id by exact Hi.
  destruct (decide (k = key)) as [->|Hne]; [exact Hh|].
  rewrite lookup_delete_ne in Hin by congruence.
  destruct Hok as (_ & _ & Hk).
  rewrite (Hk _ _ _ Hb' Hin). now rewrite Z2Nat.id.
Qed.

Lemma Keys_all_keys ht : HashTable_Keys ht = all_keys ht.
Proof.
  unfold HashTable_Keys, all_keys.
  assert (H : forall (bs : list Bucket) acc,
    fold_left (fun keys (bucket : Bucket) => keys ++ (map_to_list bucket).*1)
              bs acc
    = acc ++ concat (map (fun b : Bucket => (map_to_list b).*1) bs)).
  { induction bs as [|b bs IH]; intros acc; cbn.
    - now rewrite app_nil_r.
    - now rewrite IH, app_assoc. }
  apply (H (buckets ht) []).
Qed.

Lemma elem_of_bucket_keys (b : Bucket) k :
  k ∈ (map_to_list b).*1 <-> is_Some (b !! k).
Proof.
  rewrite list_elem_of_fmap. split.
  - intros ([k' v] & -> & Hin). apply elem_of_map_to_list in Hin.
    cbn. eauto.
  - intros [v Hv]. exists (k, v). split; [reflexivity|].
    now apply elem_of_map_to_list.
Qed.

Lemma elem_of_all_keys ht k :
  k ∈ all_keys ht
  <-> exists i b, buckets ht !! i = Some b /\ is_Some (b !! k).
Proof.
  unfold all_keys. rewrite list_elem_of_In, in_concat. split.
  - intros (l & Hl & Hk). apply in_map_iff in Hl as (b & <- & Hb).
    apply list_elem_of_In, list_elem_of_lookup in Hb as [i Hi].
    exists i, b. split; [exact Hi|].
    apply elem_of_bucket_keys, list_elem_of_In, Hk.
  - intros (i & b & Hi & Hk). exists ((map_to_list b).*1). split.
    + apply (in_map (fun b : Bucket => (map_to_list b).*1)), list_elem_of_In.
      eapply list_elem_of_lookup_2, Hi.
    + apply list_elem_of_In, elem_of_bucket_keys, Hk.
Qed.

(** [Keys] lists exactly the keys that [Get] finds. *)
Lemma Keys_iff_Get ht key :
  table_ok ht ->
  key ∈ HashTable_Keys ht
  <-> exists value, HashTable_Get ht key = Some (value, true).
Proof.
  intros (Hn & Hl & Hk). rewrite Keys_all_keys, elem_of_all_keys. split.
  - intros (i & b & Hi & [v Hv]).
    exists v. unfold HashTable_Get.
    rewrite (Hk i b key Hi (ex_intro _ v Hv)). cbn.
    unfold bucket_at. destruct (Z.ltb_spec (Z.of_nat i) 0); [lia|].
    rewrite Nat2Z.id, Hi. cbn. now rewrite Hv.
  - intros [v H]. unfold HashTable_Get in H.
    destruct (HashTable_hash ht key) as [i|] eqn:Hh; [|discriminate].
    cbn in H. destruct (bucket_at ht i) as [b|] eqn:Hb; [|discriminate].
    cbn in H. destruct (hash_bucket _ _ _ _ Hh Hb) as [_ Hb'].
    exists (Z.to_nat i), b. split; [exact Hb'|].
    destruct (b !! key) as [v'|]; [eauto|discriminate].
Qed.

Lemma NoDup_bucket_keys (h : list byte -> option Z) (bs : list Bucket) :
  forall off : nat,
  (forall i b k, bs !! i = Some b -> is_Some (b !! k) ->
                 h k = Some (Z.of_nat (off + i))) ->
  NoDup (concat (map (fun b : Bucket => (map_to_list b).*1) bs)).
Proof.
  induction bs as [|b bs IH]; intros off H; cbn [map concat].
  - constructor.
  - apply list.NoDup_app. split; [apply NoDup_fst_map_to_list|]. split.
    + intros k Hk Hk'. apply elem_of_bucket_keys in Hk.
      apply list_elem_of_In, in_concat in Hk' as (l & Hl & Hkl).
      apply in_map_iff in Hl as (b' & <- & Hb').
      apply list_elem_of_In, list_elem_of_lookup in Hb' as [j Hj].
      apply list_elem_of_In, elem_of_bucket_keys in Hkl.
      pose proof (H 0%nat b k eq_refl Hk) as H0.
      pose proof (H (S j) b' k Hj Hkl) as H1.
      rewrite H0 in H1. injection H1. lia.
    + apply (IH (S off)). intros i b' k Hi Hk.
      rewrite (H (S i) b' k Hi Hk). f_equal. lia.
Qed.

(** No key is listed twice. *)
Lemma NoDup_Keys ht : table_ok ht -> NoDup (HashTable_Keys ht).
Proof.
  intros (_ & _ & Hk). rewrite Keys_all_keys.
  apply (NoDup_bucket_keys (HashTable_hash ht) (buckets ht) 0). exact Hk.
Qed.

Lemma fold_size (bs : list Bucket) a :
  fold_left (fun count (bucket : Bucket) =>
               int_wrap (count + Z.of_nat (size bucket))) bs (int64 a)
  = int64 (a + Z.of_nat (sum_list_with size bs)).
Proof.
  revert a. induction bs as [|b bs IH]; intros a; cbn [fold_left sum_list_with].
  - now rewrite Z.add_0_r.
  - change (int_wrap (int64 a + Z.of_nat (size b)))
      with (int64 (int64 a + Z.of_nat (size b))).
    rewrite int64_add_l, IH. f_equal. lia.
Qed.

Lemma Size_sum ht :
  HashTable_Size ht = int64 (Z.of_nat (sum_list_with size (buckets ht))).
Proof.
  pose proof (fold_size (buckets ht) 0) as H.
  change (int64 0) with 0 in H. rewrite Z.add_0_l in H. exact H.
Qed.

Lemma length_all_keys (bs : list Bucket) :
  length (concat (map (fun b : Bucket => (map_to_list b).*1) bs))
  = sum_list_with size bs.
Proof.
  induction bs as [|b bs IH]; cbn [map concat sum_list_with]; [reflexivity|].
  rewrite length_app, length_fmap, length_map_to_list, IH. reflexivity.
Qed.

(** [Size] is the number of keys that [Keys] lists. *)
Lemma Size_Keys ht : HashTable_Size ht = int64 (len (HashTable_Keys ht)).
Proof.
  rewrite Size_sum, Keys_all_keys. unfold len, all_keys.
  now rewrite length_all_keys.
Qed.

Lemma sum_insert (bs : list Bucket) : forall (i : nat) b b',
  bs !! i = Some b ->
  (sum_list_with size (<[i:=b']> bs) + size b
   = sum_list_with size bs + size b')%nat.
Proof.
  induction bs as [|b0 bs IH]; intros [|i] b b' H; try discriminate.
  - injection H as <-. cbn. lia.
  - cbn [sum_list_with]. cbn in H. specialize (IH i b b' H).
    change (<[S i:=b']> (b0 :: bs)) with (b0 :: <[i:=b']> bs).
    cbn [sum_list_with]. lia.
Qed.

Lemma Size_store_bucket ht i b b' :
  0 <= i -> buckets ht !! Z.to_nat i = Some b ->
  HashTable_Size (store_bucket ht i b')
  = int64 (HashTable_Size ht + (Z.of_nat (size b') - Z.of_nat (size b))).
Proof.
  intros Hi Hb. rewrite !Size_sum. cbn [store_bucket buckets].
  pose proof (sum_insert (buckets ht) (Z.to_nat i) b b' Hb) as H.
  rewrite int64_add_l. f_equal. lia.
Qed.

(** On a table with at least one bucket, a key shorter than 2^42 bytes
    has a bucket. *)
Lemma hash_total ht key :
  table_ok ht -> len key < 2 ^ 42 ->
  exists i b, HashTable_hash ht key = Some i /\ bucket_at ht i = Some b.
Proof.
  intros (Hn & Hl & _) Hk. rewrite hash_sum.
  destruct (Z.eqb_spec (bucketSize ht) 0) as [|_]; [lia|].
  pose proof (rune_sum_runes (length key) key (Nat.le_refl _)) as Hs.
  pose proof (len_nonneg key) as H0.
  assert (Hm : MaxRune * len key < 2 ^ 63).
  { unfold MaxRune. change (2 ^ 42) with 4398046511104 in Hk.
    change (2 ^ 63) with 9223372036854775808. lia. }
  rewrite int64_small by lia.
  pose proof (Z.rem_bound_pos (rune_sum (runes key)) (bucketSize ht)
                ltac:(lia) Hn) as Hr.
  destruct (lookup_lt_is_Some_2 (buckets ht)
              (Z.to_nat (Z.rem (rune_sum (runes key)) (bucketSize ht))))
    as [b Hb].
  { unfold len in Hl. lia. }
  exists (Z.rem (rune_sum (runes key)) (bucketSize ht)), b.
  split; [reflexivity|]. unfold bucket_at.
  destruct (Z.ltb_spec (Z.rem (rune_sum (runes key)) (bucketSize ht)) 0);
    [lia|exact Hb].
Qed.

Lemma Set_total ht key value :
  table_ok ht -> len key < 2 ^ 42 ->
  exists ht', HashTable_Set ht key value = Some ht'.
Proof.
  intros Hok Hk. destruct (hash_total ht key Hok Hk) as (i & b & Hh & Hb).
  unfold HashTable_Set. rewrite Hh. cbn. rewrite Hb. cbn. eauto.
Qed.

Lemma Get_total ht key :
  table_ok ht -> len key < 2 ^ 42 ->
  exists value found, HashTable_Get ht key = Some (value, found).
Proof.
  intros Hok Hk. destruct (hash_total ht key Hok Hk) as (i & b & Hh & Hb).
  unfold HashTable_Get. rewrite Hh. cbn. rewrite Hb. cbn.
  destruct (b !! key); eauto.
Qed.

Lemma Delete_total ht key :
  table_ok ht -> len key < 2 ^ 42 ->
  exists ht' removed, HashTable_Delete ht key = Some (ht', removed).
Proof.
  intros Hok Hk. destruct (hash_total ht key Hok Hk) as (i & b & Hh & Hb).
  unfold HashTable_Delete. rewrite Hh. cbn. rewrite Hb. cbn.
  destruct (b !! key); eauto.
Qed.

(** Without buckets every operation divides by zero. *)
Lemma no_buckets ht key :
  bucketSize ht = 0 -> HashTable_hash ht key = None.
Proof. intros H. unfold HashTable_hash. now rewrite H. Qed.

Lemma Set_bucketSize ht ht' key value :
  HashTable_Set ht key value = Some ht' -> bucketSize ht' = bucketSize ht.
Proof.
  unfold HashTable_Set. intros H.
  destruct (HashTable_hash ht key) as [i|]; [|discriminate].
  cbn in H. destruct (bucket_at ht i) as [b|]; [|discriminate].
  cbn in H. now injection H as <-.
Qed.

Lemma Delete_bucketSize ht ht' key removed :
  HashTable_Delete ht key = Some (ht', removed) ->
  bucketSize ht' = bucketSize ht.
Proof.
  unfold HashTable_Delete. intros H.
  destruct (HashTable_hash ht key) as [i|]; [|discriminate].
  cbn in H. destruct (bucket_at ht i) as [b|]; [|discriminate].
  cbn in H. destruct (b !! key); now injection H as <- <-.
Qed.

Lemma sum_repeat_empty (n : nat) :
  sum_list_with size (repeat (∅ : Bucket) n) = 0%nat.
Proof. induction n as [|n IH]; [reflexivity|]. cbn. exact IH. Qed.

(** A new table holds no key. *)
Lemma NewHashTable_empty n ht :
  NewHashTable n = Some ht ->
  HashTable_Keys ht = [] /\ HashTable_Size ht = 0.
Proof.
  unfold NewHashTable. destruct (n <? 0); [discriminate|]. intros [= <-].
  assert (Hl : length (HashTable_Keys
                         {| buckets := repeat (∅ : Bucket) (Z.to_nat n);
                            bucketSize := n |}) = 0%nat).
  { rewrite Keys_all_keys. unfold all_keys.
    rewrite length_all_keys. apply sum_repeat_empty. }
  split.
  - now apply length_zero_iff_nil.
  - rewrite Size_Keys. unfold len. now rewrite Hl.
Qed.
End storage_more.

Module readers_facts.
Import Go Go_facts persistence records persistence_facts readers.

Lemma consumed_refl s : consumed [] s s.
Proof.
  unfold consumed. cbn [app]. change (len []) with 0.
  rewrite Z.add_0_r. auto.
Qed.

Lemma consumed_trans p1 p2 s1 s2 s3 :
  consumed p1 s1 s2 -> consumed p2 s2 s3 -> consumed (p1 ++ p2) s1 s3.
Proof.
  intros (E1 & C1 & N1) (E2 & C2 & N2). unfold consumed.
  rewrite E1, E2, <- app_assoc. split; [reflexivity|]. split; [|tauto].
  rewrite C2, <- int64_add_l, C1, int64_add_l, len_app. f_equal. lia.
Qed.

Lemma consumes_ret {A} (a : A) : consumes (mret a).
Proof.
  intros s r s' H. injection H as <- <-. exists []. apply consumed_refl.
Qed.

Lemma consumes_fail {A} e : consumes (@Rd_fail A e).
Proof.
  intros s r s' H. injection H as <- <-. exists []. apply consumed_refl.
Qed.

Lemma consumes_bind {A B} (m : Rd A) (k : A -> Rd B) :
  consumes m -> (forall a, consumes (k a)) -> consumes (m ≫= k).
Proof.
  intros Hm Hk s r s'. unfold mbind, Rd_bind.
  destruct (m s) as [[a|e] s1] eqn:E; intros H.
  - destruct (Hm _ _ _ E) as [p1 H1]. destruct (Hk a _ _ _ H) as [p2 H2].
    exists (p1 ++ p2). eapply consumed_trans; eassumption.
  - injection H as <- <-. eapply Hm, E.
Qed.

Lemma ReadFull_cases reader n :
  0 <= n ->
  exists p rest k err,
    ReadFull reader n = (p, k, err, rest)
    /\ reader = p ++ rest /\ k = len p
    /\ (err = None -> len p = n)
    /\ (forall e, err = Some e -> at_end e /\ rest = [])
    /\ (reader <> [] -> 0 < n -> p <> []).
Proof.
  intros Hn. unfold ReadFull.
  destruct (Z.eqb_spec n 0) as [->|N0].
  { exists [], reader, 0, None. split_and!; try reflexivity.
    - discriminate.
    - lia. }
  destruct reader as [|b reader].
  { exists [], [], 0, (Some EOF). split_and!; try reflexivity.
    - discriminate.
    - intros e [= <-]. split; [now left|reflexivity].
    - congruence. }
  destruct (Z.ltb_spec (len (b :: reader)) n) as [L|L].
  { exists (b :: reader), [], (len (b :: reader)), (Some ErrUnexpectedEOF).
    rewrite app_nil_r. split_and!; try reflexivity.
    - discriminate.
    - intros e [= <-]. split; [now right|reflexivity].
    - discriminate. }
  exists (take (Z.to_nat n) (b :: reader)), (drop (Z.to_nat n) (b :: reader)),
    n, None.
  assert (Hl : len (take (Z.to_nat n) (b :: reader)) = n).
  { unfold len in *. rewrite length_take. lia. }
  rewrite take_drop. split_and!; try reflexivity.
  - congruence.
  - intros _. exact Hl.
  - discriminate.
  - intros _ _ E. rewrite E in Hl. change (len []) with 0 in Hl. lia.
Qed.

Lemma consumes_read_full n : 0 <= n -> consumes (read_full n).
Proof.
  intros Hn [reader c] r s'. unfold read_full.
  destruct (ReadFull_cases reader n Hn)
    as (p & rest & k & err & -> & E & -> & _).
  intros H. injection H as _ <-. exists p. unfold consumed. cbn [fst snd].
  split; [exact E|]. split.
  - now rewrite int64_add_r, int64_small by apply int64_range.
  - intros _. apply int64_small, int64_range.
Qed.

Lemma le_combine_range (l : list byte) :
  0 <= le_combine l < 2 ^ (8 * Z.of_nat (length l)).
Proof. apply le_combine_bound. Qed.

Lemma Uint16_range b : 0 <= Uint16 b.
Proof. apply le_combine_range. Qed.
Lemma Uint32_range b : 0 <= Uint32 b.
Proof. apply le_combine_range. Qed.

Lemma consumes_rest_of_entry (k : option (list byte) -> Rd LogEntry) n :
  (forall v, consumes (k v)) -> 0 <= n ->
  consumes ((if n >? 0 then (v ← read_full n; mret (Some v))
             else mret None) ≫= k).
Proof.
  intros Hk Hn. apply consumes_bind; [|exact Hk].
  destruct (n >? 0); [|apply consumes_ret].
  apply consumes_bind; [apply consumes_read_full, Hn|].
  intros v. apply consumes_ret.
Qed.

Lemma consumes_readEntry_body : consumes readEntry_body.
Proof.
  unfold readEntry_body.
  apply consumes_bind; [apply consumes_read_full; lia|intros timeBytes].
  apply consumes_bind; [apply consumes_read_full; lia|intros opByte].
  apply consumes_bind; [apply consumes_read_full; lia|intros keyLenBytes].
  apply consumes_bind;
    [apply consumes_read_full, Uint16_range|intros keyBytes].
  apply consumes_bind; [apply consumes_read_full; lia|intros valueLenBytes].
  apply consumes_rest_of_entry; [|apply Uint32_range]. intros value.
  apply consumes_bind; [apply consumes_read_full; lia|intros checksumBytes].
  cbv zeta. destruct (decide _); [apply consumes_ret|apply consumes_fail].
Qed.

(** [readEntry] takes bytes off the front of the reader, reports their
    number as [bytesRead], and takes at least one unless the reader is
    empty. *)
Lemma readEntry_consumes reader r n reader' :
  Recovery_readEntry reader = (r, n, reader') ->
  exists p, reader = p ++ reader' /\ n = int64 (len p)
            /\ (reader <> [] -> p <> []).
Proof.
  unfold Recovery_readEntry.
  destruct (readEntry_body (reader, 0)) as [r0 [rd c]] eqn:E.
  intros [= <- <- <-].
  destruct (consumes_readEntry_body _ _ _ E) as (p & Hp & Hc & Hn).
  cbn [fst snd] in *. exists p. split; [exact Hp|]. split.
  - rewrite <- Hn by reflexivity. rewrite Hc. f_equal.
  - intros Hne ->. cbn [app] in Hp. subst rd.
    revert E. unfold readEntry_body, mbind at 1, Rd_bind at 1, read_full at 1.
    destruct (ReadFull_cases reader 8 ltac:(lia))
      as (p1 & rest & k & err & -> & E1 & -> & _ & Herr & Hne1).
    specialize (Hne1 Hne ltac:(lia)).
    destruct err as [e|].
    + intros [= _ <- _]. destruct (Herr e eq_refl) as [_ ->].
      rewrite app_nil_r in E1. congruence.
    + match goal with
      | |- ?k _ _ = _ -> _ => intros E2
      end.
      assert (Hlen : (length reader <= length rest)%nat).
      { cut (exists p2, rest = p2 ++ reader).
        { intros [p2 ->]. rewrite length_app. lia. }
        revert E2.
        match goal with
        | |- ?m _ = _ -> _ =>
          assert (Hc2 : consumes m); [|intros E2]
        end.
        2: { destruct (Hc2 _ _ _ E2) as (p2 & Hp2 & _). eauto. }
        apply consumes_bind; [apply consumes_read_full; lia|intros opByte].
        apply consumes_bind;
          [apply consumes_read_full; lia|intros keyLenBytes].
        apply consumes_bind;
          [apply consumes_read_full, Uint16_range|intros keyBytes].
        apply consumes_bind;
          [apply consumes_read_full; lia|intros valueLenBytes].
        apply consumes_rest_of_entry; [|apply Uint32_range]. intros value.
        apply consumes_bind;
          [apply consumes_read_full; lia|intros checksumBytes].
        cbv zeta. destruct (decide _); [apply consumes_ret|apply consumes_fail].
      }
      rewrite E1, length_app in Hlen. destruct p1; [congruence|].
      cbn [length] in Hlen. lia.
Qed.

(** *** What a successful [readEntry] returns *)

Lemma returns_bind {A B} (Q : A -> Prop) (R : B -> Prop) (m : Rd A)
    (k : A -> Rd B) :
  returns Q m -> (forall a, Q a -> returns R (k a)) -> returns R (m ≫= k).
Proof.
  intros Hm Hk s b s'. unfold mbind, Rd_bind.
  destruct (m s) as [[a|e] s1] eqn:E; intros H; [|discriminate].
  eapply Hk; [eapply Hm, E|exact H].
Qed.

Lemma returns_ret {A} (Q : A -> Prop) a : Q a -> returns Q (mret a).
Proof. intros HQ s b s' [= <- _]. exact HQ. Qed.

Lemma returns_fail {A} (Q : A -> Prop) e : returns Q (Rd_fail e).
Proof. intros s b s' H. discriminate. Qed.

Lemma returns_read_full n :
  0 <= n -> returns (fun b => len b = n) (read_full n).
Proof.
  intros Hn [reader c] b s'. unfold read_full.
  destruct (ReadFull_cases reader n Hn)
    as (p & rest & k & err & -> & _ & _ & Hok & _).
  destruct err; intros [= <- _]. now apply Hok.
Qed.

Lemma Uint16_max b : len b = 2 -> Uint16 b <= 65535.
Proof.
  intros H. pose proof (le_combine_range b) as R. unfold len in H.
  replace (8 * Z.of_nat (length b)) with 16 in R by lia.
  unfold Uint16. change (2 ^ 16) with 65536 in R. lia.
Qed.

Lemma Uint32_max b : len b = 4 -> 0 <= Uint32 b < 2 ^ 32.
Proof.
  intros H. pose proof (le_combine_range b) as R. unfold len in H.
  replace (8 * Z.of_nat (length b)) with 32 in R by lia. exact R.
Qed.

Lemma returns_readEntry_body :
  returns (fun e => well_formed e /\ Value e <> Some []) readEntry_body.
Proof.
  unfold readEntry_body.
  eapply returns_bind; [apply returns_read_full; lia|intros timeBytes _].
  eapply returns_bind; [apply returns_read_full; lia|intros opByte _].
  eapply returns_bind;
    [apply returns_read_full; lia|intros keyLenBytes HkeyLen].
  eapply returns_bind;
    [apply returns_read_full, Uint16_range|intros keyBytes Hkey].
  eapply returns_bind;
    [apply returns_read_full; lia|intros valueLenBytes HvalueLen].
  cbv beta in HkeyLen, Hkey, HvalueLen.
  pose proof (Uint16_max _ HkeyLen) as Hk.
  pose proof (Uint32_max _ HvalueLen) as Hv.
  eapply (returns_bind
            (fun value => value <> Some [] /\ len (bytes value) < 2 ^ 32)).
  { destruct (Z.gtb_spec (Uint32 valueLenBytes) 0) as [G|G].
    - eapply returns_bind; [apply returns_read_full; lia|intros v Hlv].
      cbv beta in Hlv. apply returns_ret. split.
      + intros [= ->]. change (len []) with 0 in Hlv. lia.
      + cbn [bytes]. lia.
    - apply returns_ret. split; [discriminate|].
      change (len (bytes None)) with 0. lia. }
  intros value [Hne Hlen].
  eapply returns_bind;
    [apply returns_read_full; lia|intros checksumBytes Hchecksum].
  cbv beta in Hchecksum.
  cbv zeta. destruct (decide _) as [E|_]; [|apply returns_fail].
  apply returns_ret. split; [|exact Hne].
  split; [|cbn [Checksum]; rewrite <- E; unfold Log_calculateChecksum,
    checksum_data; cbn [Timestamp Operation Key Value];
    destruct value; rewrite <- ?app_assoc, ?app_nil_r; reflexivity].
  unfold fits. cbn [Timestamp Key Value Checksum].
  split; [apply int64_range|]. split; [lia|]. split; [exact Hlen|].
  apply Uint32_max, Hchecksum.
Qed.

Lemma readEntry_returns reader e n reader' :
  Recovery_readEntry reader = (inl e, n, reader') ->
  well_formed e /\ Value e <> Some [].
Proof.
  unfold Recovery_readEntry.
  destruct (readEntry_body (reader, 0)) as [r0 [rd c]] eqn:E.
  intros [= -> _ _]. eapply returns_readEntry_body, E.
Qed.

(** *** The scanning loop ends on every file *)

Lemma recover_loop_total fuel : forall reader entries offset warnings,
  (length reader < fuel)%nat ->
  Forall (fun e => well_formed e /\ Value e <> Some []) entries ->
  exists entries' warnings',
    recover_loop fuel reader entries offset warnings
    = Some (entries', warnings')
    /\ Forall (fun e => well_formed e /\ Value e <> Some []) entries'.
Proof.
  induction fuel as [|fuel IH]; intros reader entries offset warnings Hl He;
    [lia|].
  cbn [recover_loop].
  destruct (Recovery_readEntry reader) as [[r n] reader'] eqn:E.
  destruct (readEntry_consumes _ _ _ _ E) as (p & Hp & _ & Hne).
  assert (Hshort : reader <> [] -> (length reader' < fuel)%nat).
  { intros N. specialize (Hne N). subst reader. rewrite length_app in Hl.
    destruct p; [congruence|]. cbn [length] in Hl. lia. }
  assert (Hnil : reader = [] -> r = inr EOF).
  { intros ->. rewrite readEntry_nil in E. congruence. }
  destruct reader as [|b reader].
  { rewrite Hnil by reflexivity. eauto. }
  specialize (Hshort ltac:(discriminate)).
  destruct r as [e|err].
  - apply IH; [exact Hshort|].
    apply Forall_app. split; [exact He|].
    constructor; [|constructor]. eapply readEntry_returns, E.
  - destruct err; try (apply IH; assumption). eauto.
Qed.

(** *** A file cut short *)

Lemma cut_short_ret {A} q (a : A) : cut_short q (mret a).
Proof. intros p c. cbn. left. auto. Qed.

Lemma cut_short_fail {A} q e : cut_short q (@Rd_fail A e).
Proof. intros p c. cbn. left. auto. Qed.

Lemma cut_short_bind {A B} q (m : Rd A) (k : A -> Rd B) :
  cut_short q m -> (forall a, cut_short q (k a)) -> cut_short q (m ≫= k).
Proof.
  intros Hm Hk p c. specialize (Hm p c). unfold mbind, Rd_bind.
  destruct (m (p ++ q, c)) as [r [rd cd]].
  destruct (m (p, c)) as [r' [rp cp]].
  destruct Hm as [(-> & -> & ->)|(-> & err & -> & He)].
  - destruct r as [a|e]; [apply Hk|left; auto].
  - destruct r as [a|e].
    + destruct (k a (rd, cd)) as [r2 [rd2 cd2]]. right. eauto.
    + right. eauto.
Qed.

Lemma cut_short_read_full q n : 0 <= n -> cut_short q (read_full n).
Proof.
  intros Hn p c. unfold read_full, ReadFull.
  destruct (Z.eqb_spec n 0) as [->|N0]; [left; auto|].
  destruct p as [|b p].
  { cbn [app]. destruct q as [|b q]; [left; auto|].
    destruct (len (b :: q) <? n); right; split; try reflexivity;
      exists EOF; split; try reflexivity; now left. }
  cbn [app].
  destruct (Z.ltb_spec (len (b :: p)) n) as [L|L].
  { destruct (len (b :: p ++ q) <? n); right; split; try reflexivity;
      exists ErrUnexpectedEOF; split; try reflexivity; now right. }
  destruct (Z.ltb_spec (len (b :: p ++ q)) n) as [L'|_].
  { change (b :: p ++ q) with ((b :: p) ++ q) in L'.
    rewrite len_app in L'. pose proof (len_nonneg q). lia. }
  left. change (b :: p ++ q) with ((b :: p) ++ q).
  assert (Hle : (Z.to_nat n <= length (b :: p))%nat)
    by (unfold len in L; lia).
  rewrite take_app_le, drop_app_le by exact Hle. auto.
Qed.

Lemma cut_short_readEntry_body q : cut_short q readEntry_body.
Proof.
  unfold readEntry_body.
  apply cut_short_bind; [apply cut_short_read_full; lia|intros timeBytes].
  apply cut_short_bind; [apply cut_short_read_full; lia|intros opByte].
  apply cut_short_bind; [apply cut_short_read_full; lia|intros keyLenBytes].
  apply cut_short_bind;
    [apply cut_short_read_full, Uint16_range|intros keyBytes].
  apply cut_short_bind;
    [apply cut_short_read_full; lia|intros valueLenBytes].
  apply cut_short_bind.
  { destruct (_ >? 0); [|apply cut_short_ret].
    apply cut_short_bind; [apply cut_short_read_full, Uint32_range|].
    intros v. apply cut_short_ret. }
  intros value.
  apply cut_short_bind; [apply cut_short_read_full; lia|intros checksumBytes].
  cbv zeta. destruct (decide _); [apply cut_short_ret|apply cut_short_fail].
Qed.

(** When [readEntry] uses up [p ++ q] for one entry, on [p] alone it
    meets the end of the file. *)
Lemma readEntry_cut_short p q e n :
  Recovery_readEntry (p ++ q) = (inl e, n, []) -> q <> [] ->
  exists err n', Recovery_readEntry p = (inr err, n', []) /\ at_end err.
Proof.
  unfold Recovery_readEntry. intros H Hq.
  pose proof (cut_short_readEntry_body q p 0) as Hc.
  destruct (readEntry_body (p ++ q, 0)) as [r [rd cd]].
  destruct (readEntry_body (p, 0)) as [r' [rp cp]].
  injection H as -> _ ->.
  destruct Hc as [(_ & Hrd & _)|(-> & err & -> & He)].
  - symmetry in Hrd. apply app_eq_nil in Hrd as [_ ->]. congruence.
  - eauto.
Qed.

(** A last record that was only partly written is dropped, and the
    records before it are read back. *)
Lemma scan_torn_tail es e p q :
  Forall well_formed es -> well_formed e -> wire e = p ++ q -> q <> [] ->
  scan (image es ++ p) = Some (map decoded es, [])
  \/ scan (image es ++ p)
     = Some (map decoded es,
             [(int64 (len (image es)), ErrUnexpectedEOF)]).
Proof.
  intros Hes He Hw Hq. unfold scan.
  pose proof (readEntry_well_formed e [] He) as Hr.
  rewrite app_nil_r, Hw in Hr.
  destruct (readEntry_cut_short _ _ _ _ Hr Hq) as (err & n' & Hp & Hend).
  pose proof (length_image es) as Hl.
  rewrite length_app.
  destruct p as [|b p].
  - rewrite app_nil_r.
    replace (S (length (image es) + length (@nil byte)))
      with (length es + S (length (image es) - length es))%nat
      by (cbn [length]; lia).
    rewrite <- (app_nil_r (image es)) at 2.
    rewrite recover_loop_records by (try exact Hes; lia). now left.
  - replace (S (length (image es) + length (b :: p)))
      with (length es + S (S (length (image es) + length p - length es)))%nat
      by (cbn [length]; lia).
    rewrite recover_loop_records by (try exact Hes; lia).
    cbn [recover_loop]. rewrite Hp. cbn [app].
    destruct Hend as [->| ->]; [now left|right].
    rewrite readEntry_nil, Z.add_0_l. reflexivity.
Qed.
End readers_facts.

Module log_facts.
Import Go Go_facts persistence records persistence_facts logs.
Local Open Scope string_scope.
Local Open Scope list_scope.
Local Open Scope Z_scope.

Lemma wire_not_nil e : wire e <> [].
Proof.
  intros E. pose proof (length_wire e) as H. rewrite E in H. cbn in H. lia.
Qed.

(** [Append] on a healthy log whose write succeeds: the record is added
    at the end of the file, [currSize] grows by its length, and the log
    stays healthy. *)
Lemma Append_healthy l fs os operation key value :
  healthy l -> write_ok os = true -> len key <= 65535 ->
  let data := wire (new_entry os operation key value) in
  Log_Append l fs os operation key value
  = (with_currSize l (int64 (currSize l + int64 (len data))),
     appended fs data, None).
Proof.
  intros (Hf & Ho & He & Hb) Hw Hk data. unfold Log_Append.
  rewrite serializeEntry_wire by exact Hk. fold data.
  unfold Writer_Write. rewrite He, Hb. cbn [app].
  unfold Writer_Flush. cbn [werr buf].
  pose proof (wire_not_nil (new_entry os operation key value)) as Hn.
  fold data in Hn. destruct data as [|b data]; [congruence|].
  unfold file_Write. rewrite Ho, Hw. cbn [negb].
  unfold with_currSize, appended. destruct l as [d f o [bf we] c i].
  cbn in *. subst. reflexivity.
Qed.

Lemma healthy_with_currSize l n : healthy l -> healthy (with_currSize l n).
Proof. intros H. exact H. Qed.

(** A key that does not fit the length field: [Append] returns the
    error of [serializeEntry] and touches neither the log nor the file. *)
Lemma Append_too_long l fs os operation key value :
  65535 < len key ->
  Log_Append l fs os operation key value
  = (l, fs, Some (Errorf_w "failed to serialize log entry: %w"
                           (Errorf "key is too long" []))).
Proof.
  intros Hk. unfold Log_Append.
  rewrite serializeEntry_too_long by exact Hk. reflexivity.
Qed.

Lemma with_writer_same l : with_writer l (writer l) = l.
Proof. now destruct l. Qed.

(** Once the writer holds an error, [Append] returns it and writes
    nothing. *)
Lemma Append_sticky l fs os operation key value e :
  werr (writer l) = Some e -> len key <= 65535 ->
  Log_Append l fs os operation key value
  = (l, fs, Some (Errorf_w "failed to write to log buffer: %w" e)).
Proof.
  intros He Hk. unfold Log_Append.
  rewrite serializeEntry_wire by exact Hk.
  unfold Writer_Write. rewrite He. now rewrite with_writer_same.
Qed.

(** On a closed file with nothing pending, [Append] fails and the
    writer keeps the error. *)
Lemma Append_closed l fs os operation key value :
  fd_open l = false -> werr (writer l) = None -> buf (writer l) = [] ->
  len key <= 65535 ->
  exists l',
    Log_Append l fs os operation key value
    = (l', fs, Some (Errorf_w "failed to flush log to disk: %w" ErrClosed))
    /\ werr (writer l') = Some ErrClosed /\ fd_open l' = false.
Proof.
  intros Ho He Hb Hk. unfold Log_Append.
  rewrite serializeEntry_wire by exact Hk.
  unfold Writer_Write. rewrite He, Hb. cbn [app].
  unfold Writer_Flush. cbn [werr buf].
  pose proof (wire_not_nil (new_entry os operation key value)) as Hn.
  destruct (wire (new_entry os operation key value)) as [|b data];
    [congruence|].
  unfold file_Write. rewrite Ho. cbn [negb].
  eexists. split; [reflexivity|]. split; [reflexivity|exact Ho].
Qed.

(** What a failed [Append] leaves behind when the key fits: the writer
    holds an error. *)
Lemma Append_failed l fs os operation key value l' fs' err :
  len key <= 65535 ->
  Log_Append l fs os operation key value = (l', fs', Some err) ->
  exists e, werr (writer l') = Some e.
Proof.
  intros Hk. unfold Log_Append.
  rewrite serializeEntry_wire by exact Hk.
  unfold Writer_Write.
  destruct (werr (writer l)) as [e|] eqn:He.
  { intros [= <- _ _]. rewrite with_writer_same. eauto. }
  unfold Writer_Flush. cbn [werr buf].
  destruct (buf (writer l) ++ wire (new_entry os operation key value))
    as [|b data] eqn:Hd.
  { intros [=]. }
  destruct (file_Write (fd_open l) fs os (b :: data)) as [fs1 [e|]];
    intros [= <- _ _]. cbn. eauto.
Qed.

Lemma Append_fails_after l fs os operation key value e :
  werr (writer l) = Some e ->
  exists err, Log_Append l fs os operation key value = (l, fs, Some err).
Proof.
  intros He. destruct (Z.le_gt_cases (len key) 65535) as [Hk|Hk].
  - rewrite (Append_sticky _ _ _ _ _ _ _ He Hk). eauto.
  - rewrite Append_too_long by lia. eauto.
Qed.

(** On a dead log [Append] returns an error, leaves the file alone, and
    the log stays dead. *)
Lemma Append_dead l fs os operation key value :
  dead l ->
  exists l' err,
    Log_Append l fs os operation key value = (l', fs, Some err) /\ dead l'.
Proof.
  intros [[e He]|[Ho Hb]].
  - destruct (Append_fails_after l fs os operation key value e He)
      as [err H].
    exists l, err. split; [exact H|]. left. eauto.
  - destruct (werr (writer l)) as [e|] eqn:He.
    + destruct (Append_fails_after l fs os operation key value e He)
        as [err H].
      exists l, err. split; [exact H|]. left. eauto.
    + destruct (Z.le_gt_cases (len key) 65535) as [Hk|Hk].
      * destruct (Append_closed l fs os operation key value Ho He Hb Hk)
          as (l' & H & He' & _).
        exists l'. eexists. split; [exact H|]. left. eauto.
      * rewrite Append_too_long by lia.
        exists l. eexists. split; [reflexivity|]. right. auto.
Qed.

Lemma Flush_temp_log w o fs os w' fs' err :
  Writer_Flush w o fs os = (w', fs', err) -> temp_log fs' = temp_log fs.
Proof.
  unfold Writer_Flush, file_Write.
  destruct (werr w); [now intros [= _ <- _]|].
  destruct (buf w); [now intros [= _ <- _]|].
  destruct (negb o); [now intros [= _ <- _]|].
  destruct (write_ok os); now intros [= _ <- _].
Qed.

Lemma Flush_nothing w o fs os :
  werr w = None -> buf w = [] -> Writer_Flush w o fs os = (w, fs, None).
Proof. intros He Hb. unfold Writer_Flush. now rewrite He, Hb. Qed.

(** A compaction of a healthy log that returns an error: nothing was
    done, or the log is dead, or the log file has been emptied. *)
Lemma Compact_failed l fs os l' fs' err :
  healthy l -> isCompacted l = false ->
  Log_Compact l fs os = (l', fs', Some err) ->
  (create_ok os = false /\ l' = l /\ fs' = fs)
  \/ (create_ok os = true
      /\ (close_ok os = false \/ temp_close_ok os = false
          \/ rename_ok os = false \/ open_ok os = false)
      /\ dead l'
      /\ (open_ok os = true -> database_log fs' = database_log fs))
  \/ (stat_ok os = false /\ healthy l' /\ database_log fs' = Some []).
Proof.
  intros (Hf & Ho & He & Hb) Hi. unfold Log_Compact. rewrite Hi.
  destruct (create_ok os); cbn [negb]; [|intros [= <- <- _]; auto].
  rewrite Flush_nothing by assumption. rewrite Hf, Ho.
  unfold file_Close. cbn [negb].
  destruct (close_ok os).
  2: { intros [= <- <- _]. right. left. cbn. unfold dead. cbn. auto 10. }
  destruct (temp_close_ok os); cbn [negb].
  2: { intros [= <- <- _]. right. left. cbn. unfold dead. cbn. auto 10. }
  destruct (rename_ok os); cbn [negb].
  2: { intros [= <- <- _]. right. left. cbn. unfold dead. cbn. auto 10. }
  destruct (open_ok os); cbn [negb].
  2: { intros [= <- <- _]. right. left. cbn. unfold dead. cbn.
       split; [reflexivity|]. split; [auto|]. split; [auto|discriminate]. }
  destruct (stat_ok os); cbn [negb]; [discriminate|].
  intros [= <- <- _]. right. right. cbn. unfold healthy. cbn. auto 10.
Qed.

(** [Close] on a healthy log leaves the file as it is and closes the
    log, also when the operating system reports an error. *)
Lemma Close_healthy l fs os :
  healthy l ->
  exists l',
    Log_Close l fs os
    = (l', fs, if close_ok os then None else Some (OSError "close"))
    /\ file l' = false /\ dead l'.
Proof.
  intros (Hf & Ho & He & Hb). unfold Log_Close. rewrite Hf. cbn [negb].
  rewrite Flush_nothing by assumption. rewrite Ho. unfold file_Close.
  cbn [negb]. eexists. split; [reflexivity|]. split; [reflexivity|].
  right. cbn. auto.
Qed.

Lemma Close_again l fs os : file l = false -> Log_Close l fs os = (l, fs, None).
Proof. intros Hf. unfold Log_Close. now rewrite Hf. Qed.

(** When [Append] on a healthy log returns no error, it has added the
    record at the end of the file. *)
Lemma Append_success l fs os operation key value l' fs' :
  healthy l ->
  Log_Append l fs os operation key value = (l', fs', None) ->
  fs' = appended fs (wire (new_entry os operation key value))
  /\ healthy l' /\ len key <= 65535 /\ write_ok os = true.
Proof.
  intros Hh H.
  destruct (Z.le_gt_cases (len key) 65535) as [Hk|Hk].
  2: { rewrite Append_too_long in H by lia. discriminate. }
  destruct (write_ok os) eqn:Hw.
  - rewrite (Append_healthy _ _ _ _ _ _ Hh Hw Hk) in H.
    cbv zeta in H. injection H as <- <-. auto using healthy_with_currSize.
  - exfalso. revert H. destruct Hh as (Hf & Ho & He & Hb).
    unfold Log_Append. rewrite serializeEntry_wire by exact Hk.
    unfold Writer_Write. rewrite He, Hb. cbn [app].
    unfold Writer_Flush. cbn [werr buf].
    pose proof (wire_not_nil (new_entry os operation key value)) as Hn.
    destruct (wire (new_entry os operation key value)) as [|b data];
      [congruence|].
    unfold file_Write. rewrite Ho, Hw. cbn [negb]. discriminate.
Qed.
End log_facts.

Module database_more.
Import Go Go_facts storage storage_facts persistence records
  persistence_facts database database_facts tables storage_more
  readers readers_facts logs log_facts histories.
Local Open Scope string_scope.
Local Open Scope list_scope.
Local Open Scope Z_scope.



Lemma new_entry_wf os operation key value :
  - 2 ^ 63 <= now os < 2 ^ 63 -> len key <= 65535 ->
  len (bytes value) < 2 ^ 32 ->
  well_formed (new_entry os operation key value).
Proof.
  intros Ht Hk Hv. unfold well_formed, fits, new_entry.
  cbn [with_Checksum Timestamp Key Value Checksum].
  split; [|reflexivity].
  repeat split; try assumption; try lia;
    apply crc32_facts.ChecksumIEEE_range.
Qed.















(** *** Calls that return an error *)

(** On a dead log every [Set] that passes validation fails, leaves the
    file alone, and the log stays dead. *)
Lemma Set_dead db fs os key v db' fs' r :
  dead (log db) -> isClosed db = false -> key <> [] ->
  DB_Set db fs os key (Some v) = Some (db', fs', r) ->
  (exists e, r = Some (DatabaseError "set" key e))
  /\ fs' = fs /\ dead (log db')
  /\ HashTable_Get (storage db') key = Some (None, false).
Proof.
  intros Hdead Hc Hk. unfold DB_Set. rewrite Hc.
  destruct (decide (key = [])); [contradiction|].
  destruct (HashTable_Set (storage db) key (Some v)) as [st|]; [|discriminate].
  cbn [mbind option_bind].
  destruct (Append_dead (log db) fs os OperationSet key (Some v) Hdead)
    as (l' & err & -> & Hd').
  destruct (HashTable_Delete st key) as [[st' rm]|] eqn:Hd; [|discriminate].
  cbn [mbind option_bind]. intros [= <- <- <-].
  split; [eauto|]. split; [reflexivity|]. split; [exact Hd'|].
  cbn. eapply Get_after_Delete, Hd.
Qed.

Lemma Delete_dead db fs os key db' fs' r :
  dead (log db) -> isClosed db = false -> key <> [] ->
  DB_Delete db fs os key = Some (db', fs', r) ->
  r <> None /\ fs' = fs /\ dead (log db').
Proof.
  intros Hdead Hc Hk. unfold DB_Delete. rewrite Hc.
  destruct (decide (key = [])); [contradiction|].
  destruct (HashTable_Get (storage db) key) as [[v found]|]; [|discriminate].
  cbn [mbind option_bind]. destruct found; cbn [negb].
  2: { intros [= <- <- <-]. split; [discriminate|auto]. }
  destruct (HashTable_Delete (storage db) key) as [[st rm]|]; [|discriminate].
  cbn [mbind option_bind].
  destruct (Append_dead (log db) fs os OperationDelete key None Hdead)
    as (l' & err & -> & Hd').
  intros [= <- <- <-]. split; [discriminate|]. split; [reflexivity|exact Hd'].
Qed.

(** *** Start-up *)


Lemma replay_bucketSize es : forall st st',
  replay st es = Some st' -> bucketSize st' = bucketSize st.
Proof.
  induction es as [|e es IH]; intros st st'; cbn [replay].
  - now intros [= <-].
  - unfold replay_entry.
    destruct (decide (Operation e = OperationSet)).
    + destruct (HashTable_Set st (Key e) (Value e)) as [st1|] eqn:H1;
        [|discriminate].
      cbn [mbind option_bind]. intros H. rewrite (IH _ _ H).
      eapply Set_bucketSize, H1.
    + destruct (decide (Operation e = OperationDelete)).
      * destruct (HashTable_Delete st (Key e)) as [[st1 r]|] eqn:H1;
          [|discriminate].
        cbn [mbind option_bind]. intros H. rewrite (IH _ _ H).
        eapply Delete_bucketSize, H1.
      * cbn [mbind option_bind]. apply IH.
Qed.

(** What [New] returns is open and has as many buckets as configured. *)
Lemma New_Ok cfg fs os db fs' :
  New (Some cfg) fs os = Some (Ok db, fs') ->
  isClosed db = false /\ bucketSize (storage db) = NumBuckets cfg.
Proof.
  unfold New. cbv zeta. change (default DefaultConfig (Some cfg)) with cfg.
  unfold NewHashTable.
  destruct (NumBuckets cfg <? 0); [discriminate|]. cbn [mbind option_bind].
  destruct (NewLog (LogPath cfg) fs os) as [[l|e] fs1]; [|discriminate].
  destruct (AutoRecover cfg); [|intros [= <- _]; auto].
  unfold DB_recoverFromLog. cbn [recovery storage].
  destruct (Recovery_RecoverEntries _ fs1 os) as [[[es|e] ws]|];
    [| |discriminate].
  - cbn [mbind option_bind].
    match goal with
    | |- context [replay ?st0 es] =>
      destruct (replay st0 es) as [st|] eqn:Hr; [|discriminate]
    end.
    cbn [mbind option_bind]. intros [= <- _]. cbn. split; [reflexivity|].
    now rewrite (replay_bucketSize _ _ _ Hr).
  - cbn [mbind option_bind]. destruct (Log_Close l fs1 os) as [[? ?] ?].
    discriminate.
Qed.

(** *** Compaction and the log file at start-up *)


Lemma Close_fresh_log d n fs os :
  (Log_Close {| dir := d; file := true; fd_open := true;
                writer := NewWriter; currSize := n;
                isCompacted := false |} fs os).1.2 = fs.
Proof. unfold Log_Close. cbn. reflexivity. Qed.

End database_more.

(** * Further properties of the code *)

Import tables runes_facts storage_more readers readers_facts logs log_facts
  histories database_more cases.

(** ** The hash table *)

(** X1. [Set] on one key leaves what [Get] returns for every other
    key. *)
Theorem Set_leaves_other_keys (ht ht' : HashTable) (key : list byte)
    (value : option (list byte)) (key' : list byte) :
  HashTable_Set ht key value = Some ht' -> key' <> key ->
  HashTable_Get ht' key' = HashTable_Get ht key'.
Proof. apply Get_other_after_Set. Qed.

Lemma Set_leaves_other_keys_witness :
  HashTable_Get table_a key_ab = HashTable_Get table_0 key_ab.
Proof.
  apply (Set_leaves_other_keys table_0 table_a key_a val_1 key_ab).
  - vm_compute. reflexivity.
  - discriminate.
Defined.

(** X2. [Delete] reports whether the key was there, leaves the key
    absent, changes nothing when it reports [false], and leaves what
    [Get] returns for every other key. *)
Theorem Delete_removes_the_key (ht ht' : HashTable) (key : list byte)
    (removed : bool) :
  HashTable_Delete ht key = Some (ht', removed) ->
  (exists value, HashTable_Get ht key = Some (value, removed))
  /\ HashTable_Get ht' key = Some (None, false)
  /\ (removed = false -> ht' = ht)
  /\ (forall key', key' <> key ->
        HashTable_Get ht' key' = HashTable_Get ht key').
Proof.
  intros H.
  destruct (Delete_reports_presence _ _ _ _ H) as (value & Hg & Hsame).
  split; [eauto|]. split; [eapply Get_after_Delete, H|].
  split; [exact Hsame|].
  intros key' Hne. eapply Get_other_after_Delete; eassumption.
Qed.

Lemma Delete_removes_the_key_witness :
  let r := deleted (HashTable_Delete table_a key_a) in
  (exists value, HashTable_Get table_a key_a = Some (value, r.2))
  /\ HashTable_Get r.1 key_a = Some (None, false)
  /\ (r.2 = false -> r.1 = table_a)
  /\ (forall key', key' <> key_a ->
        HashTable_Get r.1 key' = HashTable_Get table_a key').
Proof.
  intros r. apply (Delete_removes_the_key table_a r.1 key_a r.2).
  vm_compute. reflexivity.
Defined.

Lemma Get_not_found ht key value :
  HashTable_Get ht key = Some (value, false) -> value = None.
Proof.
  unfold HashTable_Get.
  destruct (HashTable_hash ht key) as [i|]; [|discriminate].
  cbn [mbind option_bind].
  destruct (bucket_at ht i) as [b|]; [|discriminate].
  cbn [mbind option_bind]. destruct (b !! key); now intros [= <-].
Qed.

Lemma new_table_props (n : Z) (ht : HashTable) :
  0 < n -> NewHashTable n = Some ht ->
  table_ok ht
  /\ HashTable_Keys ht = []
  /\ HashTable_Size ht = 0
  /\ (forall key, len key < 2 ^ 42 ->
        HashTable_Get ht key = Some (None, false)).
Proof.
  intros Hn H. pose proof (NewHashTable_ok n ht Hn H) as Hok.
  destruct (NewHashTable_empty n ht H) as [Hk Hs].
  split; [exact Hok|]. split; [exact Hk|]. split; [exact Hs|].
  intros key Hlen.
  destruct (Get_total ht key Hok Hlen) as (value & found & Hg).
  destruct found.
  - assert (Hin : key ∈ HashTable_Keys ht)
      by (apply (Keys_iff_Get ht key Hok); eauto).
    rewrite Hk in Hin. now apply not_elem_of_nil in Hin.
  - now rewrite (Get_not_found _ _ _ Hg) in Hg.
Qed.

(** X3. A table made with a positive number of buckets keeps every key
    in the bucket of its hash, and is empty: [Keys] lists nothing, [Size]
    is 0 and [Get] finds no key. *)
Theorem new_table_is_empty (n : Z) (ht : HashTable) :
  0 < n -> NewHashTable n = Some ht ->
  table_ok ht
  /\ HashTable_Keys ht = []
  /\ HashTable_Size ht = 0
  /\ (forall key, len key < 2 ^ 42 ->
        HashTable_Get ht key = Some (None, false)).
Proof. apply new_table_props. Qed.

Lemma new_table_is_empty_witness :
  table_ok table_0
  /\ HashTable_Keys table_0 = []
  /\ HashTable_Size table_0 = 0
  /\ (forall key, len key < 2 ^ 42 ->
        HashTable_Get table_0 key = Some (None, false)).
Proof.
  apply (new_table_is_empty 1024 table_0); [lia|reflexivity].
Defined.

(** X4. [Set] and [Delete] keep every key in the bucket of its hash,
    and keep the number of buckets. *)
Theorem buckets_keep_their_keys (ht ht' : HashTable) (key : list byte)
    (value : option (list byte)) (removed : bool) :
  table_ok ht ->
  HashTable_Set ht key value = Some ht'
  \/ HashTable_Delete ht key = Some (ht', removed) ->
  table_ok ht' /\ bucketSize ht' = bucketSize ht.
Proof.
  intros Hok [H|H].
  - split; [eapply Set_ok|eapply Set_bucketSize]; eassumption.
  - split; [eapply Delete_ok|eapply Delete_bucketSize]; eassumption.
Qed.

Lemma buckets_keep_their_keys_witness :
  table_ok table_a /\ bucketSize table_a = bucketSize table_0.
Proof.
  apply (buckets_keep_their_keys table_0 table_a key_a val_1 false).
  - apply (NewHashTable_ok 1024); [lia|reflexivity].
  - left. vm_compute. reflexivity.
Defined.

(** X5. [Keys] lists exactly the keys that [Get] finds, each once. *)
Theorem Keys_lists_what_Get_finds (ht : HashTable) :
  table_ok ht ->
  (forall key,
     key ∈ HashTable_Keys ht
     <-> exists value, HashTable_Get ht key = Some (value, true))
  /\ NoDup (HashTable_Keys ht).
Proof.
  intros Hok. split; [|apply NoDup_Keys, Hok].
  intros key. apply Keys_iff_Get, Hok.
Qed.

Lemma Keys_lists_what_Get_finds_witness :
  (forall key,
     key ∈ HashTable_Keys table_a
     <-> exists value, HashTable_Get table_a key = Some (value, true))
  /\ NoDup (HashTable_Keys table_a).
Proof.
  apply (Keys_lists_what_Get_finds table_a).
  apply (Set_ok table_0 table_a key_a val_1).
  - apply (NewHashTable_ok 1024); [lia|reflexivity].
  - vm_compute. reflexivity.
Defined.

(** X6. [Size] is the number of keys that [Keys] lists (as an [int]),
    for the table and for the database, open or closed. *)
Theorem Size_counts_Keys (ht : HashTable) (db : DB) :
  HashTable_Size ht = int64 (len (HashTable_Keys ht))
  /\ DB_Size db = int64 (len (DB_Keys db)).
Proof.
  split; [apply Size_Keys|]. unfold DB_Size, DB_Keys.
  destruct (isClosed db); [reflexivity|apply Size_Keys].
Qed.

(** X7. [Set] adds one to [Size] for a key that [Get] does not find,
    and nothing for a key that it finds. *)
Theorem Set_counts_new_keys (ht ht' : HashTable) (key : list byte)
    (value old : option (list byte)) (found : bool) :
  HashTable_Get ht key = Some (old, found) ->
  HashTable_Set ht key value = Some ht' ->
  HashTable_Size ht'
  = if found then HashTable_Size ht else int64 (HashTable_Size ht + 1).
Proof.
  unfold HashTable_Get, HashTable_Set. intros Hg Hs.
  destruct (HashTable_hash ht key) as [i|] eqn:Hh; [|discriminate].
  cbn in Hg, Hs. destruct (bucket_at ht i) as [b|] eqn:Hb; [|discriminate].
  cbn in Hg, Hs. injection Hs as <-.
  destruct (hash_bucket _ _ _ _ Hh Hb) as [Hi Hb'].
  rewrite (Size_store_bucket _ _ _ _ Hi Hb').
  destruct (b !! key) as [v|] eqn:Hk; injection Hg as <- <-.
  - rewrite map_size_insert_Some by eauto.
    rewrite Z.sub_diag, Z.add_0_r, Size_sum. apply int64_small, int64_range.
  - rewrite map_size_insert_None by exact Hk. f_equal. lia.
Qed.

Lemma Set_counts_new_keys_witness :
  HashTable_Size table_a = int64 (HashTable_Size table_0 + 1)
  /\ HashTable_Size (table_after (HashTable_Set table_a key_a val_2))
     = HashTable_Size table_a.
Proof.
  split.
  - apply (Set_counts_new_keys table_0 table_a key_a val_1 None false);
      vm_compute; reflexivity.
  - apply (Set_counts_new_keys table_a _ key_a val_2 val_1 true);
      vm_compute; reflexivity.
Defined.

(** X8. [Delete] takes one from [Size] exactly when it removed the
    key. *)
Theorem Delete_counts_removed_keys (ht ht' : HashTable) (key : list byte)
    (removed : bool) :
  HashTable_Delete ht key = Some (ht', removed) ->
  HashTable_Size ht'
  = if removed then int64 (HashTable_Size ht - 1) else HashTable_Size ht.
Proof.
  unfold HashTable_Delete. intros H.
  destruct (HashTable_hash ht key) as [i|] eqn:Hh; [|discriminate].
  cbn in H. destruct (bucket_at ht i) as [b|] eqn:Hb; [|discriminate].
  cbn in H. destruct (hash_bucket _ _ _ _ Hh Hb) as [Hi Hb'].
  destruct (b !! key) as [v|] eqn:Hk; injection H as <- <-; [|reflexivity].
  rewrite (Size_store_bucket _ _ _ _ Hi Hb').
  pose proof (map_size_delete_Some key b (ex_intro _ v Hk)) as Hd.
  pose proof (map_size_ne_0_lookup_2 b key (ex_intro _ v Hk)) as Hn.
  f_equal. lia.
Qed.

Lemma Delete_counts_removed_keys_witness :
  HashTable_Size (deleted (HashTable_Delete table_a key_a)).1
  = int64 (HashTable_Size table_a - 1)
  /\ HashTable_Size (deleted (HashTable_Delete table_a key_ab)).1
     = HashTable_Size table_a.
Proof.
  split.
  - apply (Delete_counts_removed_keys table_a _ key_a true).
    vm_compute. reflexivity.
  - apply (Delete_counts_removed_keys table_a _ key_ab false).
    vm_compute. reflexivity.
Defined.

(** X9. On a table with at least one bucket, [Set], [Get] and [Delete]
    of a key shorter than 2^42 bytes do not panic: the sum of the runes
    does not wrap, so the bucket index is in range. *)
Theorem table_operations_do_not_panic (ht : HashTable) (key : list byte)
    (value : option (list byte)) :
  table_ok ht -> len key < 2 ^ 42 ->
  (exists ht', HashTable_Set ht key value = Some ht')
  /\ (exists v found, HashTable_Get ht key = Some (v, found))
  /\ (exists ht' removed, HashTable_Delete ht key = Some (ht', removed)).
Proof.
  intros Hok Hk. split; [apply Set_total; assumption|].
  split; [apply Get_total|apply Delete_total]; assumption.
Qed.

Lemma table_operations_do_not_panic_witness :
  (exists ht', HashTable_Set table_0 key_ab val_2 = Some ht')
  /\ (exists v found, HashTable_Get table_0 key_ab = Some (v, found))
  /\ (exists ht' removed,
        HashTable_Delete table_0 key_ab = Some (ht', removed)).
Proof.
  apply (table_operations_do_not_panic table_0 key_ab val_2).
  - apply (NewHashTable_ok 1024); [lia|reflexivity].
  - vm_compute. reflexivity.
Defined.

(** ** The log and recovery *)

(** X10. [readEntry] takes bytes off the front of the reader and
    returns their number as [bytesRead]; it takes at least one byte
    unless the reader is empty. *)
Theorem readEntry_counts_what_it_takes (reader : list byte)
    (r : LogEntry + error) (n : Z) (reader' : list byte) :
  Recovery_readEntry reader = (r, n, reader') ->
  exists p, reader = p ++ reader' /\ n = int64 (len p)
            /\ (reader <> [] -> p <> []).
Proof. apply readEntry_consumes. Qed.

Lemma readEntry_counts_what_it_takes_witness :
  let out := Recovery_readEntry garbage in
  out.1.1 = inr ErrUnexpectedEOF
  /\ exists p, garbage = p ++ out.2 /\ out.1.2 = int64 (len p)
               /\ (garbage <> [] -> p <> []).
Proof.
  intros out. split; [reflexivity|].
  apply (readEntry_counts_what_it_takes garbage out.1.1 out.1.2 out.2).
  reflexivity.
Defined.

(** X11. Recovery ends on every log file, whatever bytes it holds, and
    every entry it returns fits the record format, carries the checksum
    of its fields, and has a value that is [nil] or not empty. *)
Theorem recovery_reads_any_file (r : Recovery) (fs : FS) (os : OS) :
  open_read_ok os = true ->
  exists entries warnings,
    Recovery_RecoverEntries r fs os = Some (Ok entries, warnings)
    /\ Forall (fun e => well_formed e /\ Value e <> Some []) entries.
Proof.
  intros Hos. unfold Recovery_RecoverEntries.
  destruct (database_log fs) as [data|]; [|eauto].
  rewrite Hos. cbn [negb].
  destruct (recover_loop_total (S (length data)) data [] 0 []
              ltac:(lia) ltac:(constructor))
    as (es & ws & Hscan & Hes).
  unfold scan. rewrite Hscan. cbn. eauto.
Qed.

Lemma recovery_reads_any_file_witness :
  exists entries warnings,
    Recovery_RecoverEntries (NewRecovery "./data")
      {| database_log := Some garbage; temp_log := None |} (os_ok 1)
    = Some (Ok entries, warnings)
    /\ Forall (fun e => well_formed e /\ Value e <> Some []) entries.
Proof.
  apply (recovery_reads_any_file (NewRecovery "./data")
           {| database_log := Some garbage; temp_log := None |} (os_ok 1)).
  reflexivity.
Defined.

(** X12. A last record of which only a part reached the file is
    dropped, with at most one warning, and the records before it are
    recovered. *)
Theorem torn_last_record_is_dropped (r : Recovery) (os : OS)
    (tmp : option (list byte)) (es : list LogEntry) (e : LogEntry)
    (p q : list byte) :
  Forall well_formed es -> well_formed e ->
  wire e = p ++ q -> q <> [] ->
  open_read_ok os = true ->
  exists warnings,
    Recovery_RecoverEntries r
      {| database_log := Some (image es ++ p); temp_log := tmp |} os
    = Some (Ok (map decoded es), warnings)
    /\ (warnings = []
        \/ warnings = [(int64 (len (image es)), ErrUnexpectedEOF)]).
Proof.
  intros Hes He Hw Hq Hos.
  erewrite RecoverEntries_scan by (try exact Hos; reflexivity).
  destruct (scan_torn_tail es e p q Hes He Hw Hq) as [-> | ->]; cbn; eauto.
Qed.

Lemma torn_last_record_is_dropped_witness :
  exists warnings,
    Recovery_RecoverEntries (NewRecovery "./data")
      {| database_log := Some (image [entry_1] ++ take 5 (wire entry_2));
         temp_log := None |} (os_ok 3)
    = Some (Ok (map decoded [entry_1]), warnings)
    /\ (warnings = []
        \/ warnings = [(int64 (len (image [entry_1])), ErrUnexpectedEOF)]).
Proof.
  apply (torn_last_record_is_dropped (NewRecovery "./data") (os_ok 3) None
           [entry_1] entry_2 (take 5 (wire entry_2))
           (drop 5 (wire entry_2))).
  - constructor; [|constructor].
    apply new_entry_wf; [cbn; lia|vm_compute; discriminate
                        |vm_compute; reflexivity].
  - apply new_entry_wf; [cbn; lia|vm_compute; discriminate
                        |vm_compute; reflexivity].
  - symmetry. apply take_drop.
  - vm_compute. discriminate.
  - reflexivity.
Defined.

(** X13. A record whose stored checksum was altered is skipped with a
    warning that names both checksums, and the records around it are
    recovered. *)
Theorem altered_checksum_is_caught (r : Recovery) (os : OS)
    (tmp : option (list byte)) (before after : list LogEntry)
    (e : LogEntry) (c : Z) :
  Forall well_formed before -> Forall well_formed after ->
  well_formed e -> 0 <= c < 2 ^ 32 -> c <> Checksum e ->
  open_read_ok os = true ->
  Recovery_RecoverEntries r
    {| database_log :=
         Some (image before ++ wire (with_Checksum e c) ++ image after);
       temp_log := tmp |} os
  = Some (Ok (map decoded before ++ map decoded after),
          [(int64 (len (image before)), checksum_error c (Checksum e))]).
Proof.
  intros Hb Ha [(Ht & Hk & Hv & _) Hsum] Hc Hne Hos.
  erewrite RecoverEntries_scan by (try exact Hos; reflexivity).
  rewrite (scan_with_bad_record before (with_Checksum e c) after Hb Ha).
  - cbn [mbind option_bind with_Checksum Checksum].
    rewrite checksum_with_Checksum, <- Hsum. reflexivity.
  - repeat split; cbn [with_Checksum Timestamp Key Value Checksum];
      try assumption; lia.
  - rewrite checksum_with_Checksum, <- Hsum. cbn [with_Checksum Checksum].
    congruence.
Qed.

Lemma altered_checksum_is_caught_witness :
  Recovery_RecoverEntries (NewRecovery "./data")
    {| database_log :=
         Some (image [entry_1] ++ wire (with_Checksum entry_2 0)
               ++ image []);
       temp_log := None |} (os_ok 3)
  = Some (Ok (map decoded [entry_1] ++ map decoded []),
          [(int64 (len (image [entry_1])),
            checksum_error 0 (Checksum entry_2))]).
Proof.
  apply (altered_checksum_is_caught (NewRecovery "./data") (os_ok 3) None
           [entry_1] [] entry_2 0).
  - constructor; [|constructor].
    apply new_entry_wf; [cbn; lia|vm_compute; discriminate
                        |vm_compute; reflexivity].
  - constructor.
  - apply new_entry_wf; [cbn; lia|vm_compute; discriminate
                        |vm_compute; reflexivity].
  - lia.
  - vm_compute. discriminate.
  - reflexivity.
Defined.

(** X14. [Append] on a healthy log whose write succeeds, with a key
    that fits: exactly the record is added at the end of the file, the
    size grows by its length, and nothing else changes. *)
Theorem Append_adds_the_record (l : Log) (fs : FS) (os : OS)
    (operation : LogOperation) (key : list byte)
    (value : option (list byte)) :
  healthy l -> write_ok os = true -> len key <= 65535 ->
  Log_Append l fs os operation key value
  = (with_currSize l
       (int64 (currSize l
               + int64 (len (wire (new_entry os operation key value))))),
     appended fs (wire (new_entry os operation key value)), None).
Proof. intros Hh Hw Hk. apply (Append_healthy l fs os); assumption. Qed.

Lemma Append_adds_the_record_witness :
  Log_Append (log db_open) fs_open (os_ok 1) OperationSet key_a val_1
  = (with_currSize (log db_open) 21,
     {| database_log := Some (wire entry_1); temp_log := None |}, None).
Proof.
  rewrite (Append_adds_the_record (log db_open) fs_open (os_ok 1)
             OperationSet key_a val_1).
  - vm_compute. reflexivity.
  - repeat split.
  - reflexivity.
  - vm_compute. discriminate.
Defined.

(** X15. A key longer than 65535 bytes: [Append] returns the error of
    [serializeEntry] and changes neither the log nor the file. *)
Theorem Append_rejects_a_long_key (l : Log) (fs : FS) (os : OS)
    (operation : LogOperation) (key : list byte)
    (value : option (list byte)) :
  65535 < len key ->
  Log_Append l fs os operation key value
  = (l, fs, Some (Errorf_w "failed to serialize log entry: %w"
                           (Errorf "key is too long" []))).
Proof. apply Append_too_long. Qed.

Lemma Append_rejects_a_long_key_witness :
  Log_Append (log db_open) fs_open (os_ok 1) OperationSet long_key val_1
  = (log db_open, fs_open,
     Some (Errorf_w "failed to serialize log entry: %w"
                    (Errorf "key is too long" []))).
Proof.
  apply (Append_rejects_a_long_key (log db_open) fs_open (os_ok 1)
           OperationSet long_key val_1).
  rewrite len_long_key. lia.
Defined.

(** X16. After an [Append] with a fitting key has returned an error,
    every later [Append] returns an error as well and leaves the log and
    the file as they are. *)
Theorem failed_Append_sticks (l : Log) (fs : FS) (os : OS)
    (operation : LogOperation) (key : list byte)
    (value : option (list byte)) (l' : Log) (fs' : FS) (err : error)
    (fs1 : FS) (os1 : OS) (operation1 : LogOperation) (key1 : list byte)
    (value1 : option (list byte)) :
  len key <= 65535 ->
  Log_Append l fs os operation key value = (l', fs', Some err) ->
  exists err1,
    Log_Append l' fs1 os1 operation1 key1 value1 = (l', fs1, Some err1).
Proof.
  intros Hk H.
  destruct (Append_failed _ _ _ _ _ _ _ _ _ Hk H) as [e He].
  eapply Append_fails_after, He.
Qed.

Lemma failed_Append_sticks_witness :
  let out :=
    Log_Append (log db_open) fs_open (os_write_fails 1) OperationSet
               key_a val_1 in
  exists err1,
    Log_Append out.1.1 fs_open (os_ok 2) OperationSet key_ab val_2
    = (out.1.1, fs_open, Some err1).
Proof.
  intros out.
  apply (failed_Append_sticks (log db_open) fs_open (os_write_fails 1)
           OperationSet key_a val_1 out.1.1 out.1.2
           (Errorf_w "failed to flush log to disk: %w" (OSError "write"))).
  - vm_compute. discriminate.
  - vm_compute. reflexivity.
Defined.

(** X17. A compaction that returns no error leaves an empty log file
    and no temporary file, whatever the log held, and a healthy log of
    size 0. *)
Theorem Compact_empties_the_log (l : Log) (fs : FS) (os : OS) (l' : Log)
    (fs' : FS) :
  isCompacted l = false ->
  Log_Compact l fs os = (l', fs', None) ->
  fs' = {| database_log := Some []; temp_log := None |}
  /\ healthy l' /\ currSize l' = 0.
Proof.
  intros Hi. unfold Log_Compact. rewrite Hi.
  destruct (create_ok os); cbn [negb]; [|discriminate].
  destruct (Writer_Flush (writer l) (fd_open l)
              {| database_log := database_log fs; temp_log := Some [] |} os)
    as [[w fs1] [e|]] eqn:Hfl; [discriminate|].
  apply Flush_temp_log in Hfl. cbn [temp_log] in Hfl.
  destruct (if file l then file_Close (fd_open l) (close_ok os)
            else Some ErrInvalid); [discriminate|].
  destruct (temp_close_ok os); cbn [negb]; [|discriminate].
  destruct (rename_ok os); cbn [negb]; [|discriminate].
  destruct (open_ok os); cbn [negb]; [|discriminate].
  destruct (stat_ok os); cbn [negb]; [|discriminate].
  intros [= <- <-]. rewrite Hfl. cbn. repeat split.
Qed.

Lemma Compact_empties_the_log_witness :
  let out := Log_Compact (log db_open) fs_1 (os_ok 2) in
  out.1.2 = {| database_log := Some []; temp_log := None |}
  /\ healthy out.1.1 /\ currSize out.1.1 = 0.
Proof.
  intros out.
  apply (Compact_empties_the_log (log db_open) fs_1 (os_ok 2)
           out.1.1 out.1.2).
  - reflexivity.
  - vm_compute. reflexivity.
Defined.

(** X18. When the compaction of a healthy log fails after the temporary
    file was created (closing either file, the renaming or the reopening
    fails), the log is left closed: every later [Append] returns an
    error and writes nothing.  Unless the reopening failed, the log file
    still holds what it held. *)
Theorem failed_Compact_closes_the_log (l : Log) (fs : FS) (os : OS)
    (l' : Log) (fs' : FS) (err : error) :
  healthy l -> isCompacted l = false ->
  create_ok os = true -> stat_ok os = true ->
  Log_Compact l fs os = (l', fs', Some err) ->
  dead l'
  /\ (open_ok os = true -> database_log fs' = database_log fs)
  /\ (forall fs1 os1 operation key value,
        exists l1 err1,
          Log_Append l' fs1 os1 operation key value = (l1, fs1, Some err1)
          /\ dead l1).
Proof.
  intros Hh Hi Hc Hs H.
  destruct (Compact_failed _ _ _ _ _ _ Hh Hi H)
    as [(Hc' & _)|[(_ & _ & Hd & Hfs)|(Hs' & _)]]; try congruence.
  split; [exact Hd|]. split; [exact Hfs|].
  intros fs1 os1 operation key value. apply Append_dead, Hd.
Qed.

Lemma failed_Compact_closes_the_log_witness :
  let out := Log_Compact (log db_open) fs_1 (os_rename_fails 2) in
  dead out.1.1
  /\ (open_ok (os_rename_fails 2) = true ->
      database_log out.1.2 = database_log fs_1)
  /\ (forall fs1 os1 operation key value,
        exists l1 err1,
          Log_Append out.1.1 fs1 os1 operation key value
          = (l1, fs1, Some err1)
          /\ dead l1).
Proof.
  intros out.
  apply (failed_Compact_closes_the_log (log db_open) fs_1
           (os_rename_fails 2) out.1.1 out.1.2
           (Errorf_w "failed to replace log file: %w" (OSError "rename"))).
  - repeat split.
  - reflexivity.
  - reflexivity.
  - reflexivity.
  - vm_compute. reflexivity.
Defined.

(** X19. [Close] on a healthy log leaves the file as it is and closes
    the log, also when the operating system reports an error: closing
    again returns [nil], and every later [Append] returns an error. *)
Theorem Close_closes_the_log (l : Log) (fs : FS) (os : OS) :
  healthy l ->
  exists l',
    Log_Close l fs os
    = (l', fs, if close_ok os then None else Some (OSError "close"))
    /\ (forall fs1 os1, Log_Close l' fs1 os1 = (l', fs1, None))
    /\ (forall fs1 os1 operation key value,
          exists l1 err1,
            Log_Append l' fs1 os1 operation key value
            = (l1, fs1, Some err1)).
Proof.
  intros Hh. destruct (Close_healthy l fs os Hh) as (l' & H & Hf & Hd).
  exists l'. split; [exact H|]. split.
  - intros fs1 os1. apply Close_again, Hf.
  - intros fs1 os1 operation key value.
    destruct (Append_dead l' fs1 os1 operation key value Hd)
      as (l1 & err1 & Ha & _).
    eauto.
Qed.

Lemma Close_closes_the_log_witness :
  exists l',
    Log_Close (log db_open) fs_1 (os_close_fails 1)
    = (l', fs_1, Some (OSError "close"))
    /\ (forall fs1 os1, Log_Close l' fs1 os1 = (l', fs1, None))
    /\ (forall fs1 os1 operation key value,
          exists l1 err1,
            Log_Append l' fs1 os1 operation key value
            = (l1, fs1, Some err1)).
Proof.
  apply (Close_closes_the_log (log db_open) fs_1 (os_close_fails 1)).
  repeat split.
Defined.

(** ** The engine *)

(** X20. [Set] returns an error in two ways.  A rejected call (closed
    database, empty key, nil value) changes neither the database nor the
    file.  A call whose log write failed leaves the key absent from the
    index, whatever it held before, and every other key as it was. *)
Theorem Set_error_outcomes (db : DB) (fs : FS) (os : OS) (key : list byte)
    (value : option (list byte)) (db' : DB) (fs' : FS) (err : error) :
  DB_Set db fs os key value = Some (db', fs', Some err) ->
  ((err = ErrDatabaseClosed \/ err = ErrEmptyKey \/ err = ErrNilValue)
   /\ db' = db /\ fs' = fs)
  \/ ((exists format e, err = DatabaseError "set" key (Errorf_w format e))
      /\ HashTable_Get (storage db') key = Some (None, false)
      /\ forall k, k <> key ->
           HashTable_Get (storage db') k = HashTable_Get (storage db) k).
Proof.
  unfold DB_Set.
  destruct (isClosed db); [intros [= <- <- <-]; auto 6|].
  destruct (decide (key = [])); [intros [= <- <- <-]; auto 6|].
  destruct value as [v|]; [|intros [= <- <- <-]; auto 6].
  destruct (HashTable_Set (storage db) key (Some v)) as [st|] eqn:Hs;
    [|discriminate].
  cbn [mbind option_bind].
  destruct (Log_Append (log db) fs os OperationSet key (Some v))
    as [[l fs1] [e|]] eqn:Ha; [|discriminate].
  destruct (HashTable_Delete st key) as [[st' r]|] eqn:Hd; [|discriminate].
  cbn [mbind option_bind]. intros [= <- <- <-]. right. split; [|split].
  - unfold Log_Append in Ha.
    destruct (Log_serializeEntry _); [|injection Ha as _ _ <-; eauto].
    destruct (Writer_Write _ _) as [w [e1|]];
      [injection Ha as _ _ <-; eauto|].
    destruct (Writer_Flush _ _ _ _) as [[w' fs2] [e2|]];
      [injection Ha as _ _ <-; eauto|discriminate].
  - cbn. eapply Get_after_Delete, Hd.
  - intros k Hk. cbn.
    rewrite (Get_other_after_Delete _ _ _ _ _ Hd Hk).
    apply (Get_other_after_Set _ _ _ _ _ Hs Hk).
Qed.

Lemma Set_error_outcomes_witness :
  let s1 := after (DB_Set db_open fs_open (os_ok 1) key_a val_1) in
  let s2 := after (DB_Set s1.1 s1.2 (os_write_fails 2) key_a val_2) in
  let err :=
    DatabaseError "set" key_a
      (Errorf_w "failed to flush log to disk: %w" (OSError "write")) in
  ((err = ErrDatabaseClosed \/ err = ErrEmptyKey \/ err = ErrNilValue)
   /\ s2.1 = s1.1 /\ s2.2 = s1.2)
  \/ ((exists format e, err = DatabaseError "set" key_a (Errorf_w format e))
      /\ HashTable_Get (storage s2.1) key_a = Some (None, false)
      /\ forall k, k <> key_a ->
           HashTable_Get (storage s2.1) k = HashTable_Get (storage s1.1) k).
Proof.
  intros s1 s2 err.
  apply (Set_error_outcomes s1.1 s1.2 (os_write_fails 2) key_a val_2
           s2.1 s2.2 err).
  vm_compute. reflexivity.
Defined.



(** X22. On a database whose log is dead, every [Set] and [Delete]
    that passes validation returns an error, leaves the file alone and
    the log dead; after such a [Set] the key is absent from the index. *)
Theorem dead_log_rejects_writes (db : DB) (fs : FS) (os : OS)
    (key : list byte) :
  dead (log db) -> isClosed db = false -> key <> [] ->
  (forall v db' fs' r,
     DB_Set db fs os key (Some v) = Some (db', fs', r) ->
     (exists e, r = Some (DatabaseError "set" key e))
     /\ fs' = fs /\ dead (log db')
     /\ HashTable_Get (storage db') key = Some (None, false))
  /\ (forall db' fs' r,
        DB_Delete db fs os key = Some (db', fs', r) ->
        r <> None /\ fs' = fs /\ dead (log db')).
Proof.
  intros Hd Hc Hk. split.
  - intros v db' fs' r. apply Set_dead; assumption.
  - intros db' fs' r. apply Delete_dead; assumption.
Qed.

Lemma dead_log_rejects_writes_witness :
  let s := after (DB_Close db_open fs_open (os_close_fails 1)) in
  (forall v db' fs' r,
     DB_Set s.1 s.2 (os_ok 2) key_a (Some v) = Some (db', fs', r) ->
     (exists e, r = Some (DatabaseError "set" key_a e))
     /\ fs' = s.2 /\ dead (log db')
     /\ HashTable_Get (storage db') key_a = Some (None, false))
  /\ (forall db' fs' r,
        DB_Delete s.1 s.2 (os_ok 2) key_a = Some (db', fs', r) ->
        r <> None /\ fs' = s.2 /\ dead (log db')).
Proof.
  intros s. apply (dead_log_rejects_writes s.1 s.2 (os_ok 2) key_a).
  - right. split; reflexivity.
  - reflexivity.
  - discriminate.
Defined.

(** X23. A [Set] that returns no error on a database with a healthy
    log has added exactly one [OperationSet] record with the key and the
    value at the end of the log file, and [Get] returns the value. *)
Theorem Set_logs_one_record (db : DB) (fs : FS) (os : OS) (key : list byte)
    (value : option (list byte)) (db' : DB) (fs' : FS) :
  healthy (log db) ->
  DB_Set db fs os key value = Some (db', fs', None) ->
  fs' = appended fs (wire (new_entry os OperationSet key value))
  /\ healthy (log db')
  /\ DB_Get db' key = Some (value, None).
Proof.
  intros Hh H. pose proof (Set_success _ _ _ _ _ _ _ H) as (Hc & Hk & Hc' & Hs).
  assert (Hg : DB_Get db' key = Some (value, None)).
  { rewrite (Get_open db' key Hc' Hk), (Get_after_Set _ _ _ _ Hs).
    reflexivity. }
  revert H. unfold DB_Set. rewrite Hc.
  destruct (decide (key = [])); [contradiction|].
  destruct value as [v|]; [|discriminate].
  destruct (HashTable_Set (storage db) key (Some v)) as [st|];
    [|discriminate].
  cbn [mbind option_bind].
  destruct (Log_Append (log db) fs os OperationSet key (Some v))
    as [[l fs1] [e|]] eqn:Ha.
  { destruct (HashTable_Delete st key) as [[st' r]|]; discriminate. }
  intros [= <- <-].
  destruct (Append_success _ _ _ _ _ _ _ _ Hh Ha) as (-> & Hh' & _).
  auto.
Qed.

Lemma Set_logs_one_record_witness :
  let s := after (DB_Set db_open fs_open (os_ok 1) key_a val_1) in
  s.2 = appended fs_open (wire entry_1)
  /\ healthy (log s.1)
  /\ DB_Get s.1 key_a = Some (val_1, None).
Proof.
  intros s.
  apply (Set_logs_one_record db_open fs_open (os_ok 1) key_a val_1 s.1 s.2).
  - repeat split.
  - vm_compute. reflexivity.
Defined.

(** X24. A [Delete] that returns no error on a database with a healthy
    log has added exactly one [OperationDelete] record with the key and a
    nil value at the end of the log file. *)
Theorem Delete_logs_one_record (db : DB) (fs : FS) (os : OS)
    (key : list byte) (db' : DB) (fs' : FS) :
  healthy (log db) ->
  DB_Delete db fs os key = Some (db', fs', None) ->
  fs' = appended fs (wire (new_entry os OperationDelete key None))
  /\ healthy (log db')
  /\ HashTable_Get (storage db') key = Some (None, false).
Proof.
  intros Hh H.
  pose proof (Delete_success _ _ _ _ _ _ H) as (Hc & Hk & Hc' & r & Hd).
  pose proof (Get_after_Delete _ _ _ _ Hd) as Hg.
  revert H. unfold DB_Delete. rewrite Hc.
  destruct (decide (key = [])); [contradiction|].
  destruct (HashTable_Get (storage db) key) as [[v found]|]; [|discriminate].
  cbn [mbind option_bind]. destruct found; cbn [negb]; [|discriminate].
  destruct (HashTable_Delete (storage db) key) as [[st rm]|]; [|discriminate].
  cbn [mbind option_bind].
  destruct (Log_Append (log db) fs os OperationDelete key None)
    as [[l fs1] [e|]] eqn:Ha; [discriminate|].
  intros [= <- <-].
  destruct (Append_success _ _ _ _ _ _ _ _ Hh Ha) as (-> & Hh' & _).
  auto.
Qed.

Lemma Delete_logs_one_record_witness :
  let s1 := after (DB_Set db_open fs_open (os_ok 1) key_a val_1) in
  let s2 := after (DB_Delete s1.1 s1.2 (os_ok 2) key_a) in
  s2.2 = appended s1.2 (wire (new_entry (os_ok 2) OperationDelete key_a None))
  /\ healthy (log s2.1)
  /\ HashTable_Get (storage s2.1) key_a = Some (None, false).
Proof.
  intros s1 s2.
  apply (Delete_logs_one_record s1.1 s1.2 (os_ok 2) key_a s2.1 s2.2).
  - repeat split.
  - vm_compute. reflexivity.
Defined.





(** X27. [New] does not check the number of buckets: with 0 it may
    return a database, and on that database every [Set], [Get] and
    [Delete] with a non-empty key panics (a division by zero in
    [hash]). *)
Theorem no_buckets_panic (cfg : Config) (fs : FS) (os : OS) (db : DB)
    (fs' : FS) (fs1 : FS) (os1 : OS) (key v : list byte) :
  NumBuckets cfg = 0 -> New (Some cfg) fs os = Some (Ok db, fs') ->
  key <> [] ->
  DB_Set db fs1 os1 key (Some v) = None
  /\ DB_Get db key = None
  /\ DB_Delete db fs1 os1 key = None.
Proof.
  intros H0 HN Hk.
  destruct (New_Ok _ _ _ _ _ HN) as [Hc Hb]. rewrite H0 in Hb.
  unfold DB_Set, DB_Get, DB_Delete, HashTable_Set, HashTable_Get.
  rewrite Hc, (no_buckets _ key Hb).
  destruct (decide (key = [])); [contradiction|]. auto.
Qed.

Lemma no_buckets_panic_witness :
  let db :=
    {| storage := {| buckets := []; bucketSize := 0 |};
       log := log db_open; recovery := recovery db_open;
       config := no_buckets_config; isClosed := false;
       closeChan := false |} in
  New (Some no_buckets_config) no_files (os_ok 0) = Some (Ok db, fs_open)
  /\ DB_Set db fs_open (os_ok 1) key_a val_1 = None
  /\ DB_Get db key_a = None
  /\ DB_Delete db fs_open (os_ok 1) key_a = None.
Proof.
  intros db.
  assert (HN : New (Some no_buckets_config) no_files (os_ok 0)
               = Some (Ok db, fs_open)) by reflexivity.
  split; [exact HN|].
  apply (no_buckets_panic no_buckets_config no_files (os_ok 0) db fs_open
           fs_open (os_ok 1) key_a [Byte.x31]).
  - reflexivity.
  - exact HN.
  - discriminate.
Defined.



(** X29. [New] never changes what the log file holds, whether it
    returns a database or an error: it leaves the file as it is, or
    creates it empty when there was none, and does not touch the
    temporary file. *)
Theorem New_keeps_the_log (cfg : option Config) (fs : FS) (os : OS)
    (r : result DB) (fs' : FS) :
  New cfg fs os = Some (r, fs') ->
  temp_log fs' = temp_log fs
  /\ (database_log fs' = database_log fs
      \/ (database_log fs = None /\ database_log fs' = Some [])).
Proof.
  unfold New. cbv zeta.
  destruct (NewHashTable (NumBuckets (default DefaultConfig cfg)))
    as [st0|]; [|discriminate].
  cbn [mbind option_bind]. unfold NewLog.
  destruct (mkdir_ok os); cbn [negb]; [|intros [= _ <-]; auto].
  destruct (open_ok os); cbn [negb]; [|intros [= _ <-]; auto].
  assert (Hfs : forall fs1,
            fs1 = {| database_log := Some (default [] (database_log fs));
                     temp_log := temp_log fs |} ->
            temp_log fs1 = temp_log fs
            /\ (database_log fs1 = database_log fs
                \/ (database_log fs = None /\ database_log fs1 = Some []))).
  { intros fs1 ->. cbn. split; [reflexivity|].
    destruct (database_log fs); cbn; auto. }
  destruct (stat_ok os); cbn [negb]; [|intros [= _ <-]; now apply Hfs].
  destruct (AutoRecover (default DefaultConfig cfg));
    [|intros [= _ <-]; now apply Hfs].
  destruct (DB_recoverFromLog _ _ os) as [[db' [err|]]|];
    cbn [mbind option_bind]; [| |discriminate].
  - match goal with
    | |- context [Log_Close ?l ?fs1 os] =>
      pose proof (Close_fresh_log (dir l) (currSize l) fs1 os) as Hcl;
      cbn [dir currSize] in Hcl;
      destruct (Log_Close l fs1 os) as [[l2 fs2] e2]
    end.
    cbn [fst snd] in Hcl. subst fs2. intros [= _ <-]. now apply Hfs.
  - intros [= _ <-]. now apply Hfs.
Qed.

Lemma New_keeps_the_log_witness :
  let err :=
    NewDatabaseError "recovery" []
      (Errorf_w "failed to open log file for recovery: %w" (OSError "open")) in
  New None fs_1 (os_read_fails 5) = Some (Err err, fs_1)
  /\ temp_log fs_1 = temp_log fs_1
  /\ (database_log fs_1 = database_log fs_1
      \/ (database_log fs_1 = None /\ database_log fs_1 = Some [])).
Proof.
  intros err.
  assert (HN : New None fs_1 (os_read_fails 5) = Some (Err err, fs_1))
    by (vm_compute; reflexivity).
  split; [exact HN|].
  apply (New_keeps_the_log None fs_1 (os_read_fails 5) (Err err) fs_1 HN).
Defined.
